(** * CalculadoraCO2: calculation engine and route directory

    Shallow embedding of [js/config.js] (the constant tables),
    [js/calculator.js] (the [Calculator] object) and [routes-data.js]
    (the [RoutesDB] object), followed by the properties of the
    specification that concern them.

    JavaScript numbers are IEEE 754 binary64 values.  They are modelled by
    [spec_float] with the binary64 parameters, and every arithmetic
    operation of the source is the correctly rounded operation of
    [SpecFloat] ([SFmul], [SFdiv], [SFadd], [SFsub]): nothing is idealised
    to real or rational arithmetic, so NaN, the infinities, the signed
    zeros, overflow and rounding behave as they do in an engine.

    JavaScript strings are sequences of UTF-16 code units. *)

From Stdlib Require Import ZArith NArith List Bool Lia String Ascii.
From Stdlib Require Import Permutation Sorted.
From Stdlib Require Import SpecFloat.
Import ListNotations.

(** ** The JavaScript fragment used by the sources *)

Module JS.

(** *** Numbers *)

Definition number : Type := spec_float.

Definition prec : Z := 53.
Definition emax : Z := 1024.

Definition add : number -> number -> number := SFadd prec emax.
Definition sub : number -> number -> number := SFsub prec emax.
Definition mul : number -> number -> number := SFmul prec emax.
Definition div : number -> number -> number := SFdiv prec emax.

(** [x < y], [x > y] and [x === y] on two numbers. *)
Definition lt (x y : number) : bool := SFltb x y.
Definition gt (x y : number) : bool := SFltb y x.
Definition strict_eq (x y : number) : bool := SFeqb x y.

(** An integer literal; it is exact below [2^53] and correctly rounded
    above. *)
Definition of_Z (z : Z) : number := binary_normalize prec emax z 0 false.

(** A decimal literal [m / 10^k].  Both [m] and [10^k] are exact for the
    literals of the sources, and the division is correctly rounded, so the
    result is the binary64 value nearest to the decimal, which is how a
    literal is read. *)
Definition decimal (m : Z) (k : Z) : number :=
  div (of_Z m) (of_Z (10 ^ k)).

Definition NaN : number := S754_nan.
Definition Infinity : number := S754_infinity false.

Definition is_nan (x : number) : bool :=
  match x with S754_nan => true | _ => false end.

Definition is_finite (x : number) : bool :=
  match x with
  | S754_zero _ | S754_finite _ _ _ => true
  | _ => false
  end.

(** [Math.round]: the integer nearest to [x], a tie going towards
    [+Infinity]; NaN, the infinities and the zeros are returned as they
    are, and a result that is zero keeps the sign of [x].  For a finite
    [x = ± m * 2^e] with [e < 0] the integer is
    [floor (x + 1/2) = floor ((± 2 m + 2^-e) / 2^(1 - e))], computed
    exactly. *)
Definition Math_round (x : number) : number :=
  match x with
  | S754_finite s m e =>
      if (0 <=? e)%Z then x
      else
        let n := ((2 * cond_Zopp s (Zpos m) + 2 ^ (- e)) / 2 ^ (1 - e))%Z in
        if (n =? 0)%Z then S754_zero s else of_Z n
  | _ => x
  end.

(** *** Values, as far as [typeof] tells them apart

    [VOther] stands for the values of the remaining types: objects,
    functions, symbols and big integers. *)

Inductive value : Type :=
| VUndefined
| VNull
| VBoolean (b : bool)
| VNumber (x : number)
| VString (s : list N)
| VOther.

(** [typeof v === 'number'] *)
Definition typeof_number (v : value) : bool :=
  match v with VNumber _ => true | _ => false end.

(** *** Strings *)

Definition jstring : Type := list N.

Fixpoint string_eqb (a b : jstring) : bool :=
  match a, b with
  | [], [] => true
  | x :: a', y :: b' => (x =? y)%N && string_eqb a' b'
  | _, _ => false
  end.

(** Decoding of the UTF-8 text of a source literal into code units. *)
Definition cont (b : N) : N := N.land b 63.

Fixpoint utf16_of_utf8 (l : list N) : jstring :=
  match l with
  | [] => []
  | b0 :: r0 =>
      if (b0 <? 128)%N then b0 :: utf16_of_utf8 r0
      else if (b0 <? 224)%N then
        match r0 with
        | b1 :: r1 =>
            (N.shiftl (N.land b0 31) 6 + cont b1)%N :: utf16_of_utf8 r1
        | [] => [65533%N]
        end
      else if (b0 <? 240)%N then
        match r0 with
        | b1 :: b2 :: r2 =>
            (N.shiftl (N.land b0 15) 12 + N.shiftl (cont b1) 6 + cont b2)%N
              :: utf16_of_utf8 r2
        | _ => [65533%N]
        end
      else
        match r0 with
        | b1 :: b2 :: b3 :: r3 =>
            let cp := (N.shiftl (N.land b0 7) 18 + N.shiftl (cont b1) 12
                       + N.shiftl (cont b2) 6 + cont b3 - 65536)%N in
            (55296 + N.shiftr cp 10)%N :: (56320 + N.land cp 1023)%N
              :: utf16_of_utf8 r3
        | _ => [65533%N]
        end
  end.

Definition lit (s : string) : jstring :=
  utf16_of_utf8 (map N_of_ascii (list_ascii_of_string s)).

(** WhiteSpace and LineTerminator code points, the ones [trim] strips. *)
Definition is_white_space (u : N) : bool :=
  ((9 <=? u) && (u <=? 13) || (u =? 32) || (u =? 160) || (u =? 5760)
   || (8192 <=? u) && (u <=? 8202) || (u =? 8232) || (u =? 8233)
   || (u =? 8239) || (u =? 8287) || (u =? 12288) || (u =? 65279))%N.

Fixpoint trimStart (s : jstring) : jstring :=
  match s with
  | u :: s' => if is_white_space u then trimStart s' else s
  | [] => []
  end.

Definition trim (s : jstring) : jstring :=
  rev (trimStart (rev (trimStart s))).

(** [toLowerCase] on the Basic Latin and Latin-1 Supplement blocks
    (A-Z, and U+00C0-U+00DE but for the multiplication sign U+00D7).
    These blocks hold every letter of the mode keys and of the city names;
    a code unit outside them is left as it is. *)
Definition lower_unit (u : N) : N :=
  if ((65 <=? u) && (u <=? 90))%N then (u + 32)%N
  else if ((192 <=? u) && (u <=? 222) && negb (u =? 215))%N then (u + 32)%N
  else u.

Definition toLowerCase (s : jstring) : jstring := map lower_unit s.

(** *** Objects used as tables: own properties in insertion order *)

Fixpoint get_own {A : Type} (o : list (jstring * A)) (k : jstring)
  : option A :=
  match o with
  | [] => None
  | (k', v) :: o' => if string_eqb k' k then Some v else get_own o' k
  end.

(** The keys that [for (k in o)] visits, in order. *)
Definition own_keys {A : Type} (o : list (jstring * A)) : list jstring :=
  map fst o.

(** *** [Array.prototype.sort] with a comparison function

    The sort is stable, and the comparison function is only looked at
    through [comparefn(x, y) < 0] (a NaN answer counts as [+0]).  Elements
    are inserted from left to right, each one in front of the first
    element it compares below; for a consistent comparison function this
    is the array every conforming engine returns. *)
Fixpoint sort_insert {A : Type} (comparefn : A -> A -> number)
  (x : A) (l : list A) : list A :=
  match l with
  | [] => [x]
  | y :: l' =>
      if lt (comparefn x y) (of_Z 0) then x :: l
      else y :: sort_insert comparefn x l'
  end.

Definition sort {A : Type} (comparefn : A -> A -> number) (l : list A)
  : list A :=
  fold_left (fun acc x => sort_insert comparefn x acc) l [].

End JS.

Import JS.

Declare Scope js_scope.
Delimit Scope js_scope with js.
Bind Scope js_scope with number.
Infix "+" := add : js_scope.
Infix "-" := sub : js_scope.
Infix "*" := mul : js_scope.
Infix "/" := div : js_scope.
Infix "<" := lt : js_scope.
Infix ">" := gt : js_scope.
Infix "===" := strict_eq (at level 70, no associativity) : js_scope.
Notation "# z" := (of_Z z%Z) (at level 1, format "# z") : js_scope.

(** ** [config.js] *)

Module CONFIG.

(** Emission factors in kg CO2 per kilometre. *)
Definition EMISSION_FACTORS : list (jstring * number) :=
  [ (lit "bicicleta", #0%js);
    (lit "carro", decimal 12 2);
    (lit "onibus", decimal 89 3);
    (lit "caminhao", decimal 96 2) ].

Module CARBON_CREDIT.
Definition KG_PER_CREDIT : number := #1000%js.
Definition PRICE_MIN_BRL : number := #50%js.
Definition PRICE_MAX_BRL : number := #150%js.
End CARBON_CREDIT.

End CONFIG.

(** ** [calculator.js]

    [CONFIG] is a global that [config.js] always defines, so the guards
    [typeof CONFIG === 'undefined' || !CONFIG.EMISSION_FACTORS] are never
    taken; [console.error] writes a diagnostic and has no other effect.
    Both are left out. *)

Module Calculator.
Import CONFIG.
Local Open Scope js_scope.

Definition calculateEmission (distanceKm : value) (transportMode : jstring)
  : number :=
  match distanceKm with
  | VNumber d =>
      if d < #0 then #0
      else
        let mode := toLowerCase (trim transportMode) in
        match get_own EMISSION_FACTORS mode with
        | None => #0
        | Some factor =>
            let emission := d * factor in
            Math_round (emission * #100) / #100
        end
  | _ => #0
  end.

Record comparison_entry : Type := Entry {
  mode : jstring;
  emission : number;
  percentageVsCar : number
}.

Definition calculateAllModes (distanceKm : value) : list comparison_entry :=
  match distanceKm with
  | VNumber d =>
      if d < #0 then []
      else
        let carEmission := calculateEmission distanceKm (lit "carro") in
        let carEmission :=
          if carEmission === #0 then decimal 1 3 else carEmission in
        let results :=
          map (fun mode =>
                 let emission := calculateEmission distanceKm mode in
                 let percentageVsCar := (emission / carEmission) * #100 in
                 Entry mode emission
                   (Math_round (percentageVsCar * #100) / #100))
              (own_keys EMISSION_FACTORS) in
        sort (fun a b => emission a - emission b) results
  | _ => []
  end.

Record savings : Type := Savings {
  savedKg : number;
  percentage : number
}.

Definition calculateSavings (emission baselineEmission : value) : savings :=
  let emission :=
    match emission with
    | VNumber e => if e < #0 then #0 else e
    | _ => #0
    end in
  let baselineEmission :=
    match baselineEmission with
    | VNumber b => if b < #0 then #0 else b
    | _ => #0
    end in
  let savedKg := baselineEmission - emission in
  let savedKg := if savedKg < #0 then #0 else savedKg in
  let percentage :=
    if baselineEmission > #0 then (savedKg / baselineEmission) * #100
    else #0 in
  Savings (Math_round (savedKg * #100) / #100)
          (Math_round (percentage * #100) / #100).

Definition calculateCarbonCredits (emissionKg : value) : number :=
  match emissionKg with
  | VNumber e =>
      if e < #0 then #0
      else
        let kgPerCredit := CARBON_CREDIT.KG_PER_CREDIT in
        let credits := e / kgPerCredit in
        Math_round (credits * #10000) / #10000
  | _ => #0
  end.

Record price : Type := Price {
  min : number;
  max : number;
  average : number
}.

Definition estimateCreditPrice (credits : value) : price :=
  match credits with
  | VNumber c =>
      if c < #0 then Price #0 #0 #0
      else
        let priceMin := CARBON_CREDIT.PRICE_MIN_BRL in
        let priceMax := CARBON_CREDIT.PRICE_MAX_BRL in
        let min := c * priceMin in
        let max := c * priceMax in
        let average := (min + max) / #2 in
        Price (Math_round (min * #100) / #100)
              (Math_round (max * #100) / #100)
              (Math_round (average * #100) / #100)
  | _ => Price #0 #0 #0
  end.

End Calculator.

(** ** [routes-data.js] *)

Module RoutesDB.
Local Open Scope js_scope.

Record route : Type := Route {
  origin : jstring;
  destination : jstring;
  distanceKM : number
}.

(** [String(s)] is [s] on a string. *)
Definition _normalize (s : jstring) : jstring := toLowerCase (trim s).

Definition routes : list route :=
  [ Route (lit "São Paulo, SP") (lit "Rio de Janeiro, RJ") #430;
    Route (lit "São Paulo, SP") (lit "Brasília, DF") #1015;
    Route (lit "Rio de Janeiro, RJ") (lit "Brasília, DF") #1148;
    Route (lit "São Paulo, SP") (lit "Campinas, SP") #95;
    Route (lit "Rio de Janeiro, RJ") (lit "Niterói, RJ") #13;
    Route (lit "Belo Horizonte, MG") (lit "Ouro Preto, MG") #100;
    Route (lit "Porto Alegre, RS") (lit "Florianópolis, SC") #460;
    Route (lit "Porto Alegre, RS") (lit "Curitiba, PR") #710;
    Route (lit "Curitiba, PR") (lit "Florianópolis, SC") #300;
    Route (lit "Salvador, BA") (lit "Feira de Santana, BA") #100;
    Route (lit "Salvador, BA") (lit "Recife, PE") #800;
    Route (lit "Recife, PE") (lit "João Pessoa, PB") #120;
    Route (lit "Fortaleza, CE") (lit "Natal, RN") #530;
    Route (lit "Fortaleza, CE") (lit "São Luís, MA") #870;
    Route (lit "Manaus, AM") (lit "Belém, PA") #1740;
    Route (lit "Belém, PA") (lit "Macapá, AP") #520;
    Route (lit "Goiânia, GO") (lit "Brasília, DF") #200;
    Route (lit "Goiânia, GO") (lit "Uberlândia, MG") #450;
    Route (lit "Uberlândia, MG") (lit "Ribeirão Preto, SP") #320;
    Route (lit "Ribeirão Preto, SP") (lit "São José do Rio Preto, SP") #220;
    Route (lit "Maceió, AL") (lit "Aracaju, SE") #270;
    Route (lit "Teresina, PI") (lit "São Luís, MA") #320;
    Route (lit "Campo Grande, MS") (lit "Cuiabá, MT") #700;
    Route (lit "Cuiabá, MT") (lit "Porto Velho, RO") #780;
    Route (lit "Belém, PA") (lit "Manaus, AM") #1740;
    Route (lit "Belo Horizonte, MG") (lit "Rio de Janeiro, RJ") #440;
    Route (lit "Belo Horizonte, MG") (lit "São Paulo, SP") #586;
    Route (lit "Porto Alegre, RS") (lit "São Paulo, SP") #1120;
    Route (lit "Recife, PE") (lit "Fortaleza, CE") #815;
    Route (lit "São Paulo, SP") (lit "Santos, SP") #75;
    Route (lit "Campina Grande, PB") (lit "João Pessoa, PB") #120;
    Route (lit "Natal, RN") (lit "Fortaleza, CE") #535;
    Route (lit "Caxias do Sul, RS") (lit "Porto Alegre, RS") #130;
    Route (lit "Vitória, ES") (lit "Belo Horizonte, MG") #520;
    Route (lit "Campos dos Goytacazes, RJ") (lit "Rio de Janeiro, RJ") #280;
    Route (lit "Petrolina, PE") (lit "Juazeiro, BA") #10 ].

(** [r] links the two normalised names, in this direction. *)
Definition links (r : route) (a b : jstring) : bool :=
  string_eqb (_normalize (origin r)) a
  && string_eqb (_normalize (destination r)) b.

(** The [for] loop of [findDistance] over a list of routes; [None] is the
    [null] the source returns when the loop ends. *)
Fixpoint scan (rs : list route) (oNorm dNorm : jstring) : option number :=
  match rs with
  | [] => None
  | r :: rs' =>
      if links r oNorm dNorm then Some (distanceKM r)
      else if links r dNorm oNorm then Some (distanceKM r)
      else scan rs' oNorm dNorm
  end.

(** [!s] on a string: only the empty string is falsy. *)
Definition falsy (s : jstring) : bool :=
  match s with [] => true | _ => false end.

Definition findDistanceIn (rs : list route) (origin destination : jstring)
  : option number :=
  if falsy origin || falsy destination then None
  else scan rs (_normalize origin) (_normalize destination).

Definition findDistance : jstring -> jstring -> option number :=
  findDistanceIn routes.

(** [citiesSet.add(c)]: a [Set] keeps its elements in the order of their
    insertion and ignores a string it already holds. *)
Definition set_add (citiesSet : list jstring) (c : jstring) : list jstring :=
  if existsb (string_eqb c) citiesSet then citiesSet else citiesSet ++ [c].

(** The [for] loop of [getAllCities] over a list of routes. *)
Fixpoint collect (rs : list route) (citiesSet : list jstring)
  : list jstring :=
  match rs with
  | [] => citiesSet
  | r :: rs' =>
      collect rs' (set_add (set_add citiesSet (origin r)) (destination r))
  end.

(** [getAllCities].  The comparison [a.localeCompare(b, 'pt-BR')] is the
    collation of the engine's locale data; it is a parameter here. *)
Definition getAllCitiesIn (localeCompare : jstring -> jstring -> number)
  (rs : list route) : list jstring :=
  let cities := collect rs [] in
  sort (fun a b => localeCompare a b) cities.

Definition getAllCities (localeCompare : jstring -> jstring -> number)
  : list jstring :=
  getAllCitiesIn localeCompare routes.

End RoutesDB.

(** ** [app.js]

    The submit handler [_onFormSubmit], from the values it reads off the
    form to the data it hands to the renderers.  Its arguments are the
    texts of the origin and destination fields, the number [parseFloat]
    reads from the distance field, and the value of the checked transport
    button (the empty string when none is checked).  [alert] is the
    outcome [Alert]; the loading state, the delay and the rendering into
    the page are left out.  The calculator never throws, so the [catch]
    branch is never taken. *)

Module APP.
Import Calculator.
Local Open Scope js_scope.

Record resultsData : Type := ResultsData {
  origin : jstring;
  destination : jstring;
  distance : number;
  emission : number;
  mode : jstring;
  savings : Calculator.savings
}.

Record creditsData : Type := CreditsData {
  credits : number;
  price : Calculator.price
}.

Inductive outcome : Type :=
| Alert (message : jstring)
| Rendered (results : resultsData)
    (comparisonArray : list comparison_entry) (credit : creditsData).

(** [!x] on a number: zero of either sign and NaN are falsy. *)
Definition not_number (x : number) : bool := is_nan x || (x === #0).

(** [x <= y] on two numbers. *)
Definition le (x y : number) : bool := SFleb x y.

Definition _onFormSubmit (originValue destinationValue : jstring)
  (parsed : number) (transportValue : jstring) : outcome :=
  let origin := trim originValue in
  let destination := trim destinationValue in
  let distanceKm := parsed in
  let distanceKm := if is_nan distanceKm then #0 else distanceKm in
  let transportMode := transportValue in
  if RoutesDB.falsy origin || RoutesDB.falsy destination then
    Alert (lit "Por favor preencha origem e destino.")
  else if not_number distanceKm || le distanceKm #0 then
    Alert (lit "Distância inválida. Verifique se a distância foi preenchida automaticamente ou marque "
             ++ 34%N :: lit "Inserir distância manualmente" ++ 34%N :: lit ".")
  else if RoutesDB.falsy transportMode then
    Alert (lit "Selecione o meio de transporte.")
  else
    let emissionKg := calculateEmission (VNumber distanceKm) transportMode in
    let carEmissionKg := calculateEmission (VNumber distanceKm) (lit "carro") in
    let savings :=
      calculateSavings (VNumber emissionKg) (VNumber carEmissionKg) in
    let comparisonArray := calculateAllModes (VNumber distanceKm) in
    let credits := calculateCarbonCredits (VNumber emissionKg) in
    let priceEstimate := estimateCreditPrice (VNumber credits) in
    Rendered
      (ResultsData origin destination distanceKm emissionKg transportMode
         savings)
      comparisonArray
      (CreditsData credits priceEstimate).

End APP.

(** ** Exact values of numbers

    Every finite binary64 number is an integer multiple of [2^emin], with
    [emin = -1074] the exponent of the least subnormal.  [ulps x] is that
    integer, so the order of the values is the order of the integers.  The
    proofs go through this order: the sign of a rounded difference is the
    order of the exact values, and on binary64 numbers the comparisons of
    the engine are the comparisons of the exact values. *)

Module Exact.

Definition emin : Z := Eval vm_compute in SpecFloat.emin prec emax.

Definition ulps (x : number) : Z :=
  match x with
  | S754_finite s m e => cond_Zopp s (Zpos m * 2 ^ (e - emin))
  | _ => 0%Z
  end.

Definition compare (x y : number) : option comparison :=
  match x, y with
  | S754_nan, _ | _, S754_nan => None
  | S754_infinity sx, S754_infinity sy =>
      Some match sx, sy with
           | true, false => Lt
           | false, true => Gt
           | _, _ => Eq
           end
  | S754_infinity s, _ => Some (if s then Lt else Gt)
  | _, S754_infinity s => Some (if s then Gt else Lt)
  | _, _ => Some (ulps x ?= ulps y)%Z
  end.

Definition ltb (x y : number) : bool :=
  match compare x y with Some Lt => true | _ => false end.

Definition eqb (x y : number) : bool :=
  match compare x y with Some Eq => true | _ => false end.

Definition leb (x y : number) : bool := ltb x y || eqb x y.

End Exact.

(** ** Classes of numbers used in the proofs *)

Module Class.

(** [x] is not NaN, has sign [s], and a finite [x] has its exponent in
    range. *)
Definition signed (s : bool) (x : number) : Prop :=
  match x with
  | S754_zero s' | S754_infinity s' => s' = s
  | S754_finite s' _ e => s' = s /\ (Exact.emin <= e)%Z
  | S754_nan => False
  end.

(** [signed s x], and [x] is not a zero. *)
Definition signed_nonzero (s : bool) (x : number) : Prop :=
  match x with
  | S754_infinity s' => s' = s
  | S754_finite s' _ e => s' = s /\ (Exact.emin <= e)%Z
  | _ => False
  end.

(** A number that is not NaN and not below zero: a zero of either sign, a
    positive finite number with its exponent in range, or [+Infinity]. *)
Definition nonneg (x : number) : Prop :=
  match x with
  | S754_zero _ => True
  | S754_infinity s => s = false
  | S754_finite s _ e => s = false /\ (Exact.emin <= e)%Z
  | S754_nan => False
  end.

(** A positive finite number. *)
Definition pos_finite (x : number) : Prop :=
  match x with
  | S754_finite s _ _ => s = false
  | _ => False
  end.

(** Magnitudes.  A finite number [m * 2^e] whose mantissa has [d] binary
    digits lies in [[2^(d+e-1), 2^(d+e))]; [d + e] is its magnitude. *)

(** A zero, or a finite number of magnitude at most [k]. *)
Definition below (k : Z) (x : number) : Prop :=
  match x with
  | S754_zero _ => True
  | S754_finite _ m e => (Zpos (digits2_pos m) + e <= k)%Z
  | _ => False
  end.

(** An infinity, or a finite number of magnitude at least [k]. *)
Definition above (k : Z) (x : number) : Prop :=
  match x with
  | S754_finite _ m e => (k <= Zpos (digits2_pos m) + e)%Z
  | S754_infinity _ => True
  | _ => False
  end.

(** A binary64 number that is finite, not below zero, and less than
    [2^k]. *)
Definition within (k : Z) (x : number) : Prop :=
  valid_binary prec emax x = true
  /\ match x with
     | S754_zero _ => True
     | S754_finite s m e => s = false /\ (Zpos (digits2_pos m) + e <= k)%Z
     | _ => False
     end.

(** A positive finite binary64 number that is at least [2^(k-1)]. *)
Definition at_least (k : Z) (x : number) : Prop :=
  valid_binary prec emax x = true
  /\ match x with
     | S754_finite s m e => s = false /\ (k <= Zpos (digits2_pos m) + e)%Z
     | _ => False
     end.

End Class.

(** ** Vocabulary of the specification *)

Module Spec.
Import CONFIG Calculator.
Local Open Scope js_scope.

(** [x] rounded to [k] decimal places, the way the sources do it: the
    value is scaled by [10^k], rounded half up to an integer by
    [Math.round], and scaled back. *)
Definition rounded (k : Z) (x : number) : number :=
  Math_round (x * of_Z (10 ^ k)) / of_Z (10 ^ k).

(** A numeric argument after the validation of [calculateSavings]: what is
    not of type number, or is below zero, counts as [0]. *)
Definition clamped (v : value) : number :=
  match v with
  | VNumber x => if x < #0 then #0 else x
  | _ => #0
  end.

(** An argument the numeric validation refuses: it is not of type number,
    or it is a number below zero. *)
Definition refused (v : value) : Prop :=
  typeof_number v = false \/ exists x, v = VNumber x /\ (x < #0) = true.

(** Place of a mode in the iteration order of the factor table. *)
Fixpoint index_of (k : jstring) (l : list jstring) : nat :=
  match l with
  | [] => O
  | k' :: l' => if string_eqb k' k then O else S (index_of k l')
  end.

Definition position (e : comparison_entry) : nat :=
  index_of (mode e) (own_keys EMISSION_FACTORS).

(** [a] may stand before [b] in a stable ascending sort on [key]: its
    exact value is smaller, or the values are equal and [a] came first. *)
Definition key_order {A : Type} (key : A -> number) (pos : A -> nat)
  (a b : A) : Prop :=
  Exact.ltb (key a) (key b) = true
  \/ (Exact.eqb (key a) (key b) = true /\ (pos a < pos b)%nat).

(** The same for the entries of [calculateAllModes], with the comparisons
    of the engine on the emissions. *)
Definition in_order (a b : comparison_entry) : Prop :=
  (emission a < emission b) = true
  \/ ((emission a === emission b) = true /\ (position a < position b)%nat).

(** The divisor of the percentages in [calculateAllModes]. *)
Definition divisor (distanceKm : value) : number :=
  let carEmission := calculateEmission distanceKm (lit "carro") in
  if carEmission === #0 then decimal 1 3 else carEmission.

(** A string of white space only; the empty string is one. *)
Definition blank (s : jstring) : Prop := forallb is_white_space s = true.

(** No route of [rs] links the two normalised names, in either
    direction. *)
Definition unlinked (rs : list RoutesDB.route) (a b : jstring) : Prop :=
  forall r, In r rs ->
            RoutesDB.links r a b = false /\ RoutesDB.links r b a = false.

(** Both city names of a route are more than white space. *)
Definition named (r : RoutesDB.route) : bool :=
  negb (RoutesDB.falsy (RoutesDB._normalize (RoutesDB.origin r)))
  && negb (RoutesDB.falsy (RoutesDB._normalize (RoutesDB.destination r))).

(** The entry the loop of [calculateAllModes] pushes for a mode. *)
Definition pushed (distanceKm : value) (mode : jstring) : comparison_entry :=
  let emission := calculateEmission distanceKm mode in
  Entry mode emission (rounded 2 ((emission / divisor distanceKm) * #100)).

End Spec.

(** * Properties *)

(** ** Binary64 rounding *)

Local Open Scope Z_scope.

Lemma pow2_gt0 (k : Z) : 0 <= k -> 0 < 2 ^ k.
Proof. intros; apply Z.pow_pos_nonneg; lia. Qed.

Lemma digits2_pos_bounds (m : positive) :
  2 ^ (Zpos (digits2_pos m) - 1) <= Zpos m < 2 ^ Zpos (digits2_pos m).
Proof.
  induction m as [p IH | p IH | ]; cbn [digits2_pos].
  - rewrite Pos2Z.inj_succ, Z.pow_succ_r by lia.
    replace (Z.succ (Zpos (digits2_pos p)) - 1) with (Z.succ (Zpos (digits2_pos p) - 1)) by lia.
    rewrite Z.pow_succ_r by lia. lia.
  - rewrite Pos2Z.inj_succ, Z.pow_succ_r by lia.
    replace (Z.succ (Zpos (digits2_pos p)) - 1) with (Z.succ (Zpos (digits2_pos p) - 1)) by lia.
    rewrite Z.pow_succ_r by lia. lia.
  - cbn. lia.
Qed.

Lemma shr_1_m (r : shr_record) :
  0 <= shr_m r -> shr_m (shr_1 r) = shr_m r / 2.
Proof.
  destruct r as [m b s]; cbn [shr_m shr_1].
  destruct m as [ | [p | p | ] | p]; intros H; cbn [shr_m]; try lia.
  - reflexivity.
  - rewrite Pos2Z.inj_xI. rewrite Z.mul_comm, Z.div_add_l by lia.
    rewrite Z.div_small; lia.
  - rewrite Pos2Z.inj_xO. rewrite Z.mul_comm, Z.div_mul; lia.
  - reflexivity.
Qed.

Lemma iter_shr_1_m (n : positive) : forall r : shr_record,
  0 <= shr_m r -> shr_m (iter_pos shr_1 n r) = shr_m r / 2 ^ Zpos n.
Proof.
  assert (Hnn : forall r, 0 <= shr_m r -> 0 <= shr_m (shr_1 r)).
  { intros r H. rewrite shr_1_m by assumption. apply Z.div_pos; lia. }
  induction n as [p IH | p IH | ]; intros r H; cbn [iter_pos].
  - pose proof (pow2_gt0 (Zpos p) ltac:(lia)) as Hp.
    assert (H1 : 0 <= shr_m (iter_pos shr_1 p (shr_1 r))).
    { rewrite IH by auto. apply Z.div_pos; auto. }
    rewrite IH, IH, shr_1_m by auto.
    rewrite !Z.div_div by lia. f_equal.
    rewrite Pos2Z.inj_xI, Z.pow_add_r by lia.
    replace (2 * Zpos p) with (Zpos p + Zpos p) by lia.
    rewrite Z.pow_add_r by lia. change (2 ^ 1) with 2. lia.
  - pose proof (pow2_gt0 (Zpos p) ltac:(lia)) as Hp.
    assert (H1 : 0 <= shr_m (iter_pos shr_1 p r)).
    { rewrite IH by auto. apply Z.div_pos; auto. }
    rewrite IH, IH by auto.
    rewrite Z.div_div by lia. f_equal.
    rewrite Pos2Z.inj_xO, <- Z.pow_add_r by lia. f_equal; lia.
  - rewrite shr_1_m by assumption. reflexivity.
Qed.

Lemma fexp_ge_emin (k : Z) : Exact.emin <= fexp prec emax k.
Proof. unfold fexp. change (SpecFloat.emin prec emax) with Exact.emin. lia. Qed.

Lemma fexp_eq (k : Z) : fexp prec emax k = Z.max (k - 53) Exact.emin.
Proof. reflexivity. Qed.

Lemma shr_record_of_loc_m (m : Z) (l : location) :
  shr_m (shr_record_of_loc m l) = m.
Proof. destruct l as [ | [ | | ]]; reflexivity. Qed.

Lemma shr_fexp_nonneg (m e : Z) (l : location) :
  0 <= m -> 0 <= shr_m (fst (shr_fexp prec emax m e l)).
Proof.
  intros Hm. unfold shr_fexp, shr.
  destruct (fexp prec emax (Zdigits2 m + e) - e) as [ | p | p]; cbn [fst];
    try (rewrite shr_record_of_loc_m; assumption).
  rewrite iter_shr_1_m by (rewrite shr_record_of_loc_m; assumption).
  rewrite shr_record_of_loc_m. apply Z.div_pos; [assumption | apply pow2_gt0; lia].
Qed.

Lemma shr_fexp_exp (m e : Z) (l : location) :
  Exact.emin <= snd (shr_fexp prec emax m e l).
Proof.
  unfold shr_fexp, shr.
  pose proof (fexp_ge_emin (Zdigits2 m + e)) as H.
  destruct (fexp prec emax (Zdigits2 m + e) - e) as [ | p | p] eqn:E; cbn [snd]; lia.
Qed.

Lemma shr_fexp_pos (m e : Z) (l : location) :
  0 < m -> Exact.emin <= e -> 0 < shr_m (fst (shr_fexp prec emax m e l)).
Proof.
  intros Hm He. unfold shr_fexp, shr.
  destruct (fexp prec emax (Zdigits2 m + e) - e) as [ | p | p] eqn:E; cbn [fst];
    try (rewrite shr_record_of_loc_m; assumption).
  rewrite iter_shr_1_m by (rewrite shr_record_of_loc_m; lia).
  rewrite shr_record_of_loc_m.
  destruct m as [ | q | q]; try lia. cbn [Zdigits2] in E.
  pose proof (digits2_pos_bounds q) as [Hlo _].
  rewrite fexp_eq in E.
  apply Z.div_str_pos. split; [apply pow2_gt0; lia | ].
  apply Z.le_trans with (2 := Hlo). apply Z.pow_le_mono_r; lia.
Qed.

Lemma round_nearest_even_bounds (m : Z) (l : location) :
  m <= round_nearest_even m l <= m + 1.
Proof.
  destruct l as [ | [ | | ]]; cbn [round_nearest_even]; try lia.
  destruct (Z.even m); lia.
Qed.

Lemma binary_round_aux_signed (s : bool) (m e : Z) (l : location) :
  0 <= m -> Class.signed s (binary_round_aux prec emax s m e l).
Proof.
  intros Hm. unfold binary_round_aux.
  destruct (shr_fexp prec emax m e l) as [r1 e1] eqn:E1.
  pose proof (shr_fexp_nonneg m e l Hm) as H1. rewrite E1 in H1; cbn [fst] in H1.
  pose proof (round_nearest_even_bounds (shr_m r1) (loc_of_shr_record r1)) as Hr.
  set (m1 := round_nearest_even (shr_m r1) (loc_of_shr_record r1)) in *.
  destruct (shr_fexp prec emax m1 e1 loc_Exact) as [r2 e2] eqn:E2.
  pose proof (shr_fexp_nonneg m1 e1 loc_Exact ltac:(lia)) as H2.
  pose proof (shr_fexp_exp m1 e1 loc_Exact) as H3.
  rewrite E2 in H2, H3; cbn [fst snd] in H2, H3.
  destruct (shr_m r2) as [ | q | q]; cbn [Class.signed]; try lia; try reflexivity.
  destruct (e2 <=? emax - prec); cbn [Class.signed]; auto.
Qed.

Lemma binary_round_aux_nonzero (s : bool) (m e : Z) (l : location) :
  0 < m -> Exact.emin <= e ->
  Class.signed_nonzero s (binary_round_aux prec emax s m e l).
Proof.
  intros Hm He. unfold binary_round_aux.
  destruct (shr_fexp prec emax m e l) as [r1 e1] eqn:E1.
  pose proof (shr_fexp_pos m e l Hm He) as H1.
  pose proof (shr_fexp_exp m e l) as H1e.
  rewrite E1 in H1, H1e; cbn [fst snd] in H1, H1e.
  pose proof (round_nearest_even_bounds (shr_m r1) (loc_of_shr_record r1)) as Hr.
  set (m1 := round_nearest_even (shr_m r1) (loc_of_shr_record r1)) in *.
  destruct (shr_fexp prec emax m1 e1 loc_Exact) as [r2 e2] eqn:E2.
  pose proof (shr_fexp_pos m1 e1 loc_Exact ltac:(lia) H1e) as H2.
  pose proof (shr_fexp_exp m1 e1 loc_Exact) as H3.
  rewrite E2 in H2, H3; cbn [fst snd] in H2, H3.
  destruct (shr_m r2) as [ | q | q]; cbn [Class.signed_nonzero]; try lia.
  destruct (e2 <=? emax - prec); cbn [Class.signed_nonzero]; auto.
Qed.

Lemma shl_align_exp (m : positive) (e e' : Z) :
  Exact.emin <= e -> Exact.emin <= e' ->
  Exact.emin <= snd (shl_align m e e').
Proof.
  intros. unfold shl_align. destruct (e' - e); cbn [snd]; lia.
Qed.

Lemma binary_round_nonzero (s : bool) (m : positive) (e : Z) :
  Exact.emin <= e ->
  Class.signed_nonzero s (binary_round prec emax s m e).
Proof.
  intros He. unfold binary_round.
  pose proof (shl_align_exp m e (fexp prec emax (Zpos (digits2_pos m) + e)) He
                (fexp_ge_emin _)) as Ha.
  destruct (shl_align m e (fexp prec emax (Zpos (digits2_pos m) + e))) as [mz ez].
  cbn [snd] in Ha. apply binary_round_aux_nonzero; [lia | assumption].
Qed.

Lemma binary_round_signed (s : bool) (m : positive) (e : Z) :
  Class.signed s (binary_round prec emax s m e).
Proof.
  unfold binary_round.
  destruct (shl_align m e (fexp prec emax (Zpos (digits2_pos m) + e))) as [mz ez].
  apply binary_round_aux_signed; lia.
Qed.

Lemma signed_false_nonneg (x : number) : Class.signed false x -> Class.nonneg x.
Proof. destruct x; cbn; auto. Qed.

Lemma signed_nonzero_signed (s : bool) (x : number) :
  Class.signed_nonzero s x -> Class.signed s x.
Proof. destruct x; cbn; auto; contradiction. Qed.

Lemma nonneg_not_lt_zero (x : number) : Class.nonneg x -> lt x (of_Z 0) = false.
Proof.
  destruct x as [s | s | | s m e]; cbn; intros H; try reflexivity.
  - subst s; reflexivity.
  - destruct H as [-> _]; reflexivity.
Qed.

Lemma nonneg_not_nan (x : number) : Class.nonneg x -> is_nan x = false.
Proof. destruct x; cbn; auto; contradiction. Qed.

Lemma mul_nonneg_finite (x y : number) :
  is_finite x = true -> lt x (of_Z 0) = false ->
  is_finite y = true -> lt y (of_Z 0) = false ->
  Class.nonneg (mul x y).
Proof.
  destruct x as [sx | sx | | sx mx ex]; destruct y as [sy | sy | | sy my ey];
    cbn [is_finite]; try discriminate; try (intros; exact I).
  destruct sx; [cbn; discriminate | ]. destruct sy; [cbn; discriminate | ].
  intros _ _ _ _.
  apply signed_false_nonneg. apply (binary_round_aux_signed false). lia.
Qed.

Lemma mul_nonneg_pos (x y : number) :
  Class.nonneg x -> Class.pos_finite y -> Class.nonneg (mul x y).
Proof.
  destruct x as [sx | sx | | sx mx ex]; destruct y as [sy | sy | | sy my ey];
    cbn [Class.nonneg Class.pos_finite]; try contradiction;
    try (intros; exact I).
  - intros -> ->. reflexivity.
  - intros [-> _] ->.
    apply signed_false_nonneg. apply (binary_round_aux_signed false). lia.
Qed.

Lemma div_core_nonneg (m1 m2 : positive) (e1 e2 : Z) :
  0 <= fst (fst (SFdiv_core_binary prec emax (Zpos m1) e1 (Zpos m2) e2)).
Proof.
  unfold SFdiv_core_binary.
  set (s := e1 - e2 - _).
  set (m' := match s with Z0 => _ | Zpos _ => _ | Zneg _ => _ end).
  assert (Hm : 0 <= m').
  { subst m'. destruct s; try lia. apply Z.shiftl_nonneg. lia. }
  pose proof (Z.div_pos m' (Zpos m2) Hm ltac:(lia)) as Hq.
  unfold Z.div in Hq. destruct (Z.div_eucl m' (Zpos m2)) as [q r].
  exact Hq.
Qed.

Lemma div_nonneg_pos (x y : number) :
  Class.nonneg x -> Class.pos_finite y -> Class.nonneg (div x y).
Proof.
  destruct x as [sx | sx | | sx mx ex]; destruct y as [sy | sy | | sy my ey];
    cbn [Class.nonneg Class.pos_finite]; try contradiction;
    try (intros; exact I).
  - intros -> ->. reflexivity.
  - intros [-> _] ->. unfold div, SFdiv.
    pose proof (div_core_nonneg mx my ex ey) as Hq.
    destruct (SFdiv_core_binary prec emax (Zpos mx) ex (Zpos my) ey) as [[mz ez] lz].
    cbn [fst] in Hq.
    apply signed_false_nonneg. apply (binary_round_aux_signed false). exact Hq.
Qed.

Lemma of_Z_pos_signed (n : Z) : 0 < n -> Class.signed_nonzero false (of_Z n).
Proof.
  destruct n as [ | p | p]; try lia. intros _.
  unfold of_Z, binary_normalize. apply binary_round_nonzero.
  unfold Exact.emin; lia.
Qed.

Lemma Math_round_nonneg (x : number) :
  Class.nonneg x -> Class.nonneg (Math_round x).
Proof.
  destruct x as [s | s | | s m e]; cbn [Class.nonneg Math_round]; auto.
  intros [-> He]. destruct (0 <=? e) eqn:E0; [cbn; auto | ].
  apply Z.leb_gt in E0. cbn [cond_Zopp].
  set (n := (2 * Zpos m + 2 ^ (- e)) / 2 ^ (1 - e)).
  assert (Hn : 0 <= n).
  { apply Z.div_pos; [ | apply pow2_gt0; lia].
    pose proof (pow2_gt0 (- e) ltac:(lia)). lia. }
  destruct (n =? 0) eqn:En; [exact I | ].
  apply Z.eqb_neq in En.
  apply signed_false_nonneg, signed_nonzero_signed, of_Z_pos_signed. lia.
Qed.

Lemma shl_align_fst (m : positive) (e e' : Z) :
  e' <= e -> Zpos (fst (shl_align m e e')) = Zpos m * 2 ^ (e - e').
Proof.
  intros H. unfold shl_align.
  destruct (e' - e) as [ | p | p] eqn:E; cbn [fst]; try lia.
  - replace (e - e') with 0 by lia. lia.
  - change (Pos.iter xO m p) with (shift_pos p m).
    rewrite shift_pos_correct. replace (e - e') with (Zpos p) by lia.
    rewrite Z.mul_comm. reflexivity.
Qed.

Lemma ulps_finite_pos (m : positive) (e : Z) :
  Exact.emin <= e -> 0 < Zpos m * 2 ^ (e - Exact.emin).
Proof.
  intros. pose proof (pow2_gt0 (e - Exact.emin) ltac:(lia)). lia.
Qed.

Lemma ulps_aligned (m : positive) (e ez : Z) :
  Exact.emin <= ez -> ez <= e ->
  Zpos m * 2 ^ (e - Exact.emin)
  = Zpos (fst (shl_align m e ez)) * 2 ^ (ez - Exact.emin).
Proof.
  intros. rewrite shl_align_fst by assumption.
  rewrite <- Z.mul_assoc, <- Z.pow_add_r by lia. do 2 f_equal. lia.
Qed.

Lemma lt_zero_signed_false (r : number) :
  Class.signed false r -> lt r (of_Z 0) = false.
Proof.
  destruct r as [s | s | | s m e]; cbn; intros H; try reflexivity.
  - subst s; reflexivity.
  - destruct H as [-> _]; reflexivity.
Qed.

Lemma lt_zero_signed_nonzero_true (r : number) :
  Class.signed_nonzero true r -> lt r (of_Z 0) = true.
Proof.
  destruct r as [s | s | | s m e]; cbn; intros H; try contradiction.
  - subst s; reflexivity.
  - destruct H as [-> _]; reflexivity.
Qed.

(** The sign of a difference is the order of the exact values. *)
Lemma sub_lt_zero (x y : number) :
  Class.nonneg x -> Class.nonneg y ->
  lt (sub x y) (of_Z 0) = Exact.ltb x y.
Proof.
  destruct x as [sx | sx | | sx mx ex]; destruct y as [sy | sy | | sy my ey];
    cbn [Class.nonneg]; try contradiction.
  - intros _ _. destruct sx, sy; reflexivity.
  - intros _ ->. reflexivity.
  - intros _ [-> He]. unfold Exact.ltb, Exact.compare.
    cbn [Exact.ulps cond_Zopp].
    pose proof (ulps_finite_pos my ey He).
    destruct (Z.compare_spec 0 (Zpos my * 2 ^ (ey - Exact.emin))); try lia.
    reflexivity.
  - intros -> _. reflexivity.
  - intros -> ->. reflexivity.
  - intros -> [-> He]. reflexivity.
  - intros [-> He] _. unfold Exact.ltb, Exact.compare.
    cbn [Exact.ulps cond_Zopp].
    pose proof (ulps_finite_pos mx ex He).
    destruct (Z.compare_spec (Zpos mx * 2 ^ (ex - Exact.emin)) 0); try lia.
    reflexivity.
  - intros [-> He] ->. reflexivity.
  - intros [-> Hx] [-> Hy].
    unfold Exact.ltb, Exact.compare. cbn [Exact.ulps cond_Zopp].
    unfold sub, SFsub. cbn [cond_Zopp].
    set (ez := Z.min ex ey).
    assert (Hez : Exact.emin <= ez) by (subst ez; lia).
    rewrite (ulps_aligned mx ex ez Hez) by (subst ez; lia).
    rewrite (ulps_aligned my ey ez Hez) by (subst ez; lia).
    set (a := Zpos (fst (shl_align mx ex ez))).
    set (b := Zpos (fst (shl_align my ey ez))).
    pose proof (pow2_gt0 (ez - Exact.emin) ltac:(lia)) as Hc.
    set (c := 2 ^ (ez - Exact.emin)) in *.
    destruct (a - b) as [ | p | p] eqn:E; cbn [binary_normalize].
    + assert (a = b) by lia.
      destruct (Z.compare_spec (a * c) (b * c)); try nia. reflexivity.
    + rewrite (lt_zero_signed_false _ (binary_round_signed false p ez)).
      destruct (Z.compare_spec (a * c) (b * c)); try nia; reflexivity.
    + rewrite (lt_zero_signed_nonzero_true _ (binary_round_nonzero true p ez Hez)).
      destruct (Z.compare_spec (a * c) (b * c)); try nia; reflexivity.
Qed.

(** A finite number divided by itself is one, whatever its mantissa. *)
Lemma div_self (s : bool) (m : positive) (e : Z) :
  div (S754_finite s m e) (S754_finite s m e) = of_Z 1.
Proof.
  unfold div, SFdiv, SFdiv_core_binary. cbn [Zdigits2].
  replace (Zpos (digits2_pos m) + e - (Zpos (digits2_pos m) + e)) with 0 by lia.
  rewrite Z.sub_diag.
  change (Z.min (fexp prec emax 0) 0) with (-53).
  change (0 - -53) with 53.
  cbv iota beta.
  rewrite Z.shiftl_mul_pow2 by lia.
  pose proof (Z.div_mul (2 ^ 53) (Zpos m) ltac:(lia)) as Hq.
  pose proof (Z.mod_mul (2 ^ 53) (Zpos m) ltac:(lia)) as Hr.
  rewrite (Z.mul_comm (2 ^ 53)) in Hq, Hr.
  unfold Z.div in Hq. unfold Z.modulo in Hr.
  destruct (Z.div_eucl (Zpos m * 2 ^ 53) (Zpos m)) as [q r].
  subst q r.
  assert (Hl : new_location (Zpos m) 0 = loc_Exact).
  { unfold new_location. destruct (Z.even (Zpos m)); reflexivity. }
  rewrite Hl, xorb_nilpotent. vm_compute. reflexivity.
Qed.

(** On binary64 numbers, the comparison of the engine is the comparison of
    the exact values. *)
Lemma valid_finite_bounds (s : bool) (m : positive) (e : Z) :
  valid_binary prec emax (S754_finite s m e) = true ->
  Exact.emin <= e /\ Zpos m < 2 ^ 53
  /\ (Exact.emin < e -> 2 ^ 52 <= Zpos m).
Proof.
  cbn [valid_binary]. unfold bounded, canonical_mantissa.
  intros H. apply andb_true_iff in H. destruct H as [H _].
  apply Z.eqb_eq in H. rewrite fexp_eq in H.
  pose proof (digits2_pos_bounds m) as [Hlo Hhi].
  split; [lia | ]. split.
  - apply Z.lt_le_trans with (1 := Hhi). apply Z.pow_le_mono_r; lia.
  - intros He. replace (Zpos (digits2_pos m) - 1) with 52 in Hlo by lia. exact Hlo.
Qed.

Lemma valid_ulps_lt (s1 s2 : bool) (m1 m2 : positive) (e1 e2 : Z) :
  valid_binary prec emax (S754_finite s1 m1 e1) = true ->
  valid_binary prec emax (S754_finite s2 m2 e2) = true ->
  e1 < e2 ->
  Zpos m1 * 2 ^ (e1 - Exact.emin) < Zpos m2 * 2 ^ (e2 - Exact.emin).
Proof.
  intros H1 H2 He.
  apply valid_finite_bounds in H1, H2.
  destruct H1 as (Hr1 & Hm1 & _). destruct H2 as (Hr2 & _ & Hm2).
  specialize (Hm2 ltac:(lia)).
  replace (e2 - Exact.emin) with ((e2 - e1 - 1) + 1 + (e1 - Exact.emin)) by lia.
  rewrite !Z.pow_add_r by lia. change (2 ^ 1) with 2.
  pose proof (pow2_gt0 (e1 - Exact.emin) ltac:(lia)) as Hc.
  pose proof (pow2_gt0 (e2 - e1 - 1) ltac:(lia)) as Hd.
  change (2 ^ 53) with (2 * 2 ^ 52) in Hm1.
  set (K := 2 ^ 52) in *.
  set (c := 2 ^ (e1 - Exact.emin)) in *.
  set (d := 2 ^ (e2 - e1 - 1)) in *.
  assert (A1 : Zpos m1 * c < 2 * K * c) by (apply Z.mul_lt_mono_pos_r; lia).
  assert (A2 : 2 * K * c <= Zpos m2 * 2 * c) by (apply Z.mul_le_mono_nonneg_r; lia).
  assert (A3 : Zpos m2 * 2 * c * 1 <= Zpos m2 * 2 * c * d)
    by (apply Z.mul_le_mono_nonneg_l; lia).
  lia.
Qed.

Lemma compare_cont_Eq (m1 m2 : positive) :
  Pos.compare_cont Eq m1 m2 = (Zpos m1 ?= Zpos m2).
Proof. reflexivity. Qed.

Lemma SFcompare_exact (x y : number) :
  valid_binary prec emax x = true -> valid_binary prec emax y = true ->
  SFcompare x y = Exact.compare x y.
Proof.
  destruct x as [sx | sx | | sx mx ex]; destruct y as [sy | sy | | sy my ey];
    intros Hx Hy; try reflexivity; try (destruct sx, sy; reflexivity).
  - pose proof (valid_finite_bounds _ _ _ Hy) as (Hr & _).
    pose proof (ulps_finite_pos my ey Hr) as Hp.
    unfold Exact.compare, Exact.ulps. cbn [SFcompare]. f_equal.
    destruct sy; cbn [cond_Zopp]; symmetry.
    + apply Z.compare_gt_iff. lia.
    + apply Z.compare_lt_iff. lia.
  - pose proof (valid_finite_bounds _ _ _ Hx) as (Hr & _).
    pose proof (ulps_finite_pos mx ex Hr) as Hp.
    unfold Exact.compare, Exact.ulps. cbn [SFcompare]. f_equal.
    destruct sx; cbn [cond_Zopp]; symmetry.
    + apply Z.compare_lt_iff. lia.
    + apply Z.compare_gt_iff. lia.
  - pose proof (valid_finite_bounds _ _ _ Hx) as (Hrx & _).
    pose proof (valid_finite_bounds _ _ _ Hy) as (Hry & _).
    pose proof (ulps_finite_pos mx ex Hrx) as Hpx.
    pose proof (ulps_finite_pos my ey Hry) as Hpy.
    unfold Exact.compare, Exact.ulps. cbn [SFcompare]. f_equal.
    destruct sx, sy; cbn [cond_Zopp]; symmetry.
    + destruct (Z.compare_spec ex ey) as [E | E | E].
      * subst ey. rewrite compare_cont_Eq.
        pose proof (pow2_gt0 (ex - Exact.emin) ltac:(lia)) as Hc.
        destruct (Z.compare_spec (Zpos mx) (Zpos my)) as [F | F | F]; cbn [CompOpp].
        -- apply Z.compare_eq_iff. rewrite F. reflexivity.
        -- apply Z.compare_gt_iff. nia.
        -- apply Z.compare_lt_iff. nia.
      * apply Z.compare_gt_iff.
        pose proof (valid_ulps_lt _ _ _ _ _ _ Hx Hy E). lia.
      * apply Z.compare_lt_iff.
        pose proof (valid_ulps_lt _ _ _ _ _ _ Hy Hx E). lia.
    + apply Z.compare_lt_iff. lia.
    + apply Z.compare_gt_iff. lia.
    + destruct (Z.compare_spec ex ey) as [E | E | E].
      * subst ey. rewrite compare_cont_Eq.
        pose proof (pow2_gt0 (ex - Exact.emin) ltac:(lia)) as Hc.
        destruct (Z.compare_spec (Zpos mx) (Zpos my)) as [F | F | F].
        -- apply Z.compare_eq_iff. rewrite F. reflexivity.
        -- apply Z.compare_lt_iff. nia.
        -- apply Z.compare_gt_iff. nia.
      * apply Z.compare_lt_iff.
        pose proof (valid_ulps_lt _ _ _ _ _ _ Hx Hy E). lia.
      * apply Z.compare_gt_iff.
        pose proof (valid_ulps_lt _ _ _ _ _ _ Hy Hx E). lia.
Qed.

(** *** Validity and magnitude of results *)

Lemma Zdigits2_bounds (m : Z) :
  0 < m -> 2 ^ (Zdigits2 m - 1) <= m < 2 ^ Zdigits2 m.
Proof.
  destruct m as [ | p | p]; try lia. intros _. apply digits2_pos_bounds.
Qed.

Lemma Zdigits2_nonneg (m : Z) : 0 <= Zdigits2 m.
Proof. destruct m; cbn; lia. Qed.

Lemma Zdigits2_pos (m : Z) : 0 < m -> 0 < Zdigits2 m.
Proof. destruct m; cbn; lia. Qed.

Lemma Zdigits2_le (m k : Z) : 0 <= k -> m < 2 ^ k -> 0 <= m -> Zdigits2 m <= k.
Proof.
  intros Hk Hm H0. destruct (Z.eq_dec m 0) as [-> | Hn]; [cbn; lia | ].
  pose proof (Zdigits2_bounds m ltac:(lia)) as [Hlo _].
  destruct (Z.le_gt_cases (Zdigits2 m) k) as [ | Hgt]; [assumption | exfalso].
  assert (2 ^ k <= 2 ^ (Zdigits2 m - 1)) by (apply Z.pow_le_mono_r; lia).
  lia.
Qed.

Lemma Zdigits2_ge (m k : Z) : 2 ^ (k - 1) <= m -> 1 <= k -> k <= Zdigits2 m.
Proof.
  intros Hm Hk.
  assert (0 < m) by (pose proof (pow2_gt0 (k - 1) ltac:(lia)); lia).
  pose proof (Zdigits2_bounds m ltac:(lia)) as [_ Hhi].
  pose proof (Zdigits2_pos m ltac:(lia)).
  destruct (Z.le_gt_cases k (Zdigits2 m)) as [ | Hgt]; [assumption | exfalso].
  assert (2 ^ Zdigits2 m <= 2 ^ (k - 1)) by (apply Z.pow_le_mono_r; lia).
  lia.
Qed.

Lemma Zdigits2_mono (a b : Z) : 0 <= a <= b -> Zdigits2 a <= Zdigits2 b.
Proof.
  intros [Ha Hab]. destruct (Z.eq_dec a 0) as [-> | Hn]; [apply Zdigits2_nonneg | ].
  apply Zdigits2_ge; [ | pose proof (Zdigits2_pos a); lia].
  pose proof (Zdigits2_bounds a ltac:(lia)). lia.
Qed.

Lemma Zdigits2_shiftr (m n : Z) :
  0 < m -> 0 <= n < Zdigits2 m -> Zdigits2 (m / 2 ^ n) = Zdigits2 m - n.
Proof.
  intros Hm Hn. pose proof (Zdigits2_bounds m Hm) as [Hlo Hhi].
  pose proof (pow2_gt0 n ltac:(lia)) as Hp.
  apply Z.le_antisymm.
  - apply Zdigits2_le; [lia | | apply Z.div_pos; lia].
    apply Z.div_lt_upper_bound; [lia | ].
    rewrite <- Z.pow_add_r by lia. replace (n + (Zdigits2 m - n)) with (Zdigits2 m) by lia.
    exact Hhi.
  - apply Zdigits2_ge; [ | lia].
    apply Z.div_le_lower_bound; [lia | ].
    rewrite <- Z.pow_add_r by lia. replace (n + (Zdigits2 m - n - 1)) with (Zdigits2 m - 1) by lia.
    exact Hlo.
Qed.

Lemma Zdigits2_shiftr_zero (m n : Z) :
  0 <= m -> Zdigits2 m <= n -> m / 2 ^ n = 0.
Proof.
  intros Hm Hn. apply Z.div_small. split; [lia | ].
  destruct (Z.eq_dec m 0) as [-> | Hne].
  - apply pow2_gt0. pose proof (Zdigits2_nonneg 0). cbn in Hn; lia.
  - pose proof (Zdigits2_bounds m ltac:(lia)) as [_ Hhi].
    apply Z.lt_le_trans with (1 := Hhi). apply Z.pow_le_mono_r; lia.
Qed.

Lemma Zdigits2_succ (m : Z) :
  0 <= m -> Zdigits2 m <= Zdigits2 (m + 1) <= Zdigits2 m + 1.
Proof.
  intros Hm. split; [apply Zdigits2_mono; lia | ].
  apply Zdigits2_le; [pose proof (Zdigits2_nonneg m); lia | | lia].
  destruct (Z.eq_dec m 0) as [-> | Hne]; [cbn; lia | ].
  pose proof (Zdigits2_bounds m ltac:(lia)) as [_ Hhi].
  rewrite Z.pow_add_r by (pose proof (Zdigits2_nonneg m); lia). lia.
Qed.

Lemma fexp_mono (a b : Z) : a <= b -> fexp prec emax a <= fexp prec emax b.
Proof. rewrite !fexp_eq. lia. Qed.

Lemma shr_fexp_spec (m e : Z) (l : location) :
  0 <= m -> e <= fexp prec emax (Zdigits2 m + e) ->
  snd (shr_fexp prec emax m e l) = fexp prec emax (Zdigits2 m + e)
  /\ shr_m (fst (shr_fexp prec emax m e l))
     = m / 2 ^ (fexp prec emax (Zdigits2 m + e) - e).
Proof.
  intros Hm He. unfold shr_fexp, shr.
  destruct (fexp prec emax (Zdigits2 m + e) - e) as [ | p | p] eqn:E;
    cbn [fst snd]; try lia.
  - rewrite shr_record_of_loc_m. split; [lia | ]. rewrite Z.div_1_r. reflexivity.
  - rewrite iter_shr_1_m by (rewrite shr_record_of_loc_m; assumption).
    rewrite shr_record_of_loc_m. split; [lia | reflexivity].
Qed.

(** After the shift the pair is canonical; the magnitude is kept unless
    everything was shifted out. *)
Lemma shr_fexp_canonical (m e : Z) (l : location) :
  0 <= m -> e <= fexp prec emax (Zdigits2 m + e) ->
  let m' := shr_m (fst (shr_fexp prec emax m e l)) in
  let e' := snd (shr_fexp prec emax m e l) in
  0 <= m' /\ Exact.emin <= e'
  /\ fexp prec emax (Zdigits2 m' + e') = e'
  /\ ((0 < m' /\ Zdigits2 m' + e' = Zdigits2 m + e)
      \/ (m' = 0 /\ e' = Exact.emin /\ Zdigits2 m + e <= Exact.emin)).
Proof.
  intros Hm He. cbv zeta.
  destruct (shr_fexp_spec m e l Hm He) as [-> ->].
  set (f := fexp prec emax (Zdigits2 m + e)) in *.
  pose proof (fexp_ge_emin (Zdigits2 m + e)) as Hf. fold f in Hf.
  pose proof (pow2_gt0 (f - e) ltac:(lia)) as Hp.
  pose proof (Zdigits2_nonneg m) as Hd.
  split; [apply Z.div_pos; lia | ]. split; [exact Hf | ].
  destruct (Z.lt_ge_cases (f - e) (Zdigits2 m)) as [Hlt | Hge].
  - assert (Hm0 : 0 < m) by (destruct m; cbn in *; lia).
    rewrite Zdigits2_shiftr by lia.
    replace (Zdigits2 m - (f - e) + f) with (Zdigits2 m + e) by lia.
    split; [reflexivity | ]. left. split; [ | reflexivity].
    apply Z.div_str_pos. split; [lia | ].
    pose proof (Zdigits2_bounds m Hm0) as [Hlo _].
    apply Z.le_trans with (2 := Hlo). apply Z.pow_le_mono_r; lia.
  - rewrite Zdigits2_shiftr_zero by lia. cbn [Zdigits2].
    assert (Hfe : f = Exact.emin).
    { subst f. rewrite fexp_eq in *. lia. }
    split; [rewrite Hfe; reflexivity | ]. right. lia.
Qed.

Lemma binary_round_aux_valid (s : bool) (m e : Z) (l : location) :
  0 <= m -> e <= fexp prec emax (Zdigits2 m + e) ->
  let r := binary_round_aux prec emax s m e l in
  valid_binary prec emax r = true
  /\ (Zdigits2 m + e <= 1023 ->
      Class.below (Z.max (Zdigits2 m + e) Exact.emin + 1) r)
  /\ (0 < m -> Exact.emin < Zdigits2 m + e -> Class.above (Zdigits2 m + e) r).
Proof.
  intros Hm He. cbv zeta. unfold binary_round_aux.
  pose proof (shr_fexp_canonical m e l Hm He) as H1. cbv zeta in H1.
  destruct (shr_fexp prec emax m e l) as [r1 e1]. cbn [fst snd] in H1.
  destruct H1 as (Hm1 & He1 & Hc1 & Hmag1).
  pose proof (round_nearest_even_bounds (shr_m r1) (loc_of_shr_record r1)) as Hr.
  set (m1 := round_nearest_even (shr_m r1) (loc_of_shr_record r1)) in *.
  assert (Hd1 : Zdigits2 (shr_m r1) <= Zdigits2 m1 <= Zdigits2 (shr_m r1) + 1).
  { destruct Hr as [Ha Hb]. split.
    - apply Zdigits2_mono; lia.
    - apply Z.le_trans with (Zdigits2 (shr_m r1 + 1)).
      + apply Zdigits2_mono; lia.
      + apply Zdigits2_succ; lia. }
  assert (He2 : e1 <= fexp prec emax (Zdigits2 m1 + e1)).
  { rewrite <- Hc1 at 1. apply fexp_mono. lia. }
  pose proof (shr_fexp_canonical m1 e1 loc_Exact ltac:(lia) He2) as H2.
  cbv zeta in H2.
  destruct (shr_fexp prec emax m1 e1 loc_Exact) as [r2 e2]. cbn [fst snd] in H2.
  destruct H2 as (Hm2 & He2' & Hc2 & Hmag2).
  destruct (shr_m r2) as [ | q | q] eqn:Eq; try lia.
  - cbn [valid_binary Class.below Class.above]. repeat split; auto.
    intros Hpos Hmag. destruct Hmag1 as [[Hp1 Hq1] | [Hz1 [_ Hz4]]]; [ | lia].
    destruct Hmag2 as [[Hp2 _] | [Hz2 [Hz3 Hz4]]]; [lia | ].
    pose proof (Zdigits2_pos (shr_m r1) Hp1). lia.
  - cbn [Zdigits2] in *.
    destruct (e2 <=? emax - prec) eqn:Eb.
    + cbn [valid_binary Class.below Class.above]. unfold bounded, canonical_mantissa.
      rewrite Hc2, Z.eqb_refl, Eb. split; [reflexivity | ].
      destruct Hmag2 as [[_ Hq2] | [Hz2 _]]; [ | lia]. split.
      * intros _. destruct Hmag1 as [[_ Hq1] | [Hz1 [Hz3 Hz4]]]; [lia | ].
        rewrite Hz1 in Hd1. cbn [Zdigits2] in Hd1. lia.
      * intros Hpos Hmag. destruct Hmag1 as [[_ Hq1] | [Hz1 [Hz3 Hz4]]]; lia.
    + cbn [valid_binary Class.below Class.above]. split; [reflexivity | ].
      apply Z.leb_gt in Eb. split; [ | auto].
      intros Hb. exfalso.
      destruct Hmag2 as [[_ Hq2] | [Hz2 _]]; [ | lia].
      rewrite fexp_eq in Hc2. unfold emax, prec, Exact.emin in *.
      destruct Hmag1 as [[_ Hq1] | [Hz1 [Hz3 Hz4]]].
      * lia.
      * rewrite Hz1 in Hd1. cbn [Zdigits2] in Hd1. lia.
Qed.

Lemma below_mono (k k' : Z) (x : number) : k <= k' -> Class.below k x -> Class.below k' x.
Proof. destruct x; cbn; auto; lia. Qed.

Lemma above_mono (k k' : Z) (x : number) : k' <= k -> Class.above k x -> Class.above k' x.
Proof. destruct x; cbn; auto; lia. Qed.

Lemma Zdigits2_mul (a b : positive) :
  Zdigits2 (Zpos a) + Zdigits2 (Zpos b) - 1 <= Zdigits2 (Zpos (a * b))
  <= Zdigits2 (Zpos a) + Zdigits2 (Zpos b).
Proof.
  pose proof (Zdigits2_bounds (Zpos a) ltac:(lia)) as [Ha1 Ha2].
  pose proof (Zdigits2_bounds (Zpos b) ltac:(lia)) as [Hb1 Hb2].
  pose proof (Zdigits2_pos (Zpos a) ltac:(lia)) as Ha.
  pose proof (Zdigits2_pos (Zpos b) ltac:(lia)) as Hb.
  set (da := Zdigits2 (Zpos a)) in *. set (db := Zdigits2 (Zpos b)) in *.
  rewrite Pos2Z.inj_mul.
  pose proof (pow2_gt0 (da - 1) ltac:(lia)). pose proof (pow2_gt0 (db - 1) ltac:(lia)).
  split.
  - apply Zdigits2_ge; [ | lia].
    replace (da + db - 1 - 1) with ((da - 1) + (db - 1)) by lia.
    rewrite Z.pow_add_r by lia. apply Z.mul_le_mono_nonneg; lia.
  - apply Zdigits2_le; [lia | | lia].
    rewrite Z.pow_add_r by lia. apply Z.mul_lt_mono_nonneg; lia.
Qed.

Lemma valid_canonical (s : bool) (m : positive) (e : Z) :
  valid_binary prec emax (S754_finite s m e) = true ->
  fexp prec emax (Zdigits2 (Zpos m) + e) = e /\ e <= 971.
Proof.
  cbn [valid_binary]. unfold bounded, canonical_mantissa. intros H.
  apply andb_true_iff in H. destruct H as [H1 H2].
  apply Z.eqb_eq in H1. apply Z.leb_le in H2. split; [exact H1 | exact H2].
Qed.

Lemma mul_finite_valid (sx sy : bool) (mx my : positive) (ex ey : Z) :
  valid_binary prec emax (S754_finite sx mx ex) = true ->
  valid_binary prec emax (S754_finite sy my ey) = true ->
  let k := Zdigits2 (Zpos mx) + ex + (Zdigits2 (Zpos my) + ey) in
  let r := mul (S754_finite sx mx ex) (S754_finite sy my ey) in
  valid_binary prec emax r = true
  /\ (k <= 1023 -> Class.below (Z.max k Exact.emin + 1) r)
  /\ (Exact.emin < k - 1 -> Class.above (k - 1) r).
Proof.
  intros Vx Vy. cbv zeta.
  destruct (valid_canonical _ _ _ Vx) as [Cx _].
  destruct (valid_canonical _ _ _ Vy) as [Cy _].
  pose proof (Zdigits2_mul mx my) as [Hlo Hhi].
  pose proof (Zdigits2_pos (Zpos mx) ltac:(lia)) as Hdx.
  pose proof (Zdigits2_pos (Zpos my) ltac:(lia)) as Hdy.
  assert (H0 : ex + ey <= fexp prec emax (Zdigits2 (Zpos (mx * my)) + (ex + ey))).
  { rewrite fexp_eq in *. unfold Exact.emin in *. lia. }
  change (mul (S754_finite sx mx ex) (S754_finite sy my ey))
    with (binary_round_aux prec emax (xorb sx sy) (Zpos (mx * my)) (ex + ey) loc_Exact).
  pose proof (binary_round_aux_valid (xorb sx sy) (Zpos (mx * my)) (ex + ey)
                loc_Exact ltac:(lia) H0) as (V & B & A).
  split; [exact V | split].
  - intros Hk. eapply below_mono; [ | apply B; lia]. lia.
  - intros Hk. eapply above_mono; [ | apply A; lia]. lia.
Qed.

Lemma mul_valid (x y : number) :
  valid_binary prec emax x = true -> valid_binary prec emax y = true ->
  valid_binary prec emax (mul x y) = true.
Proof.
  destruct x as [sx | sx | | sx mx ex]; destruct y as [sy | sy | | sy my ey];
    try reflexivity.
  intros Vx Vy. apply (mul_finite_valid sx sy mx my ex ey Vx Vy).
Qed.

Lemma div_core_spec (mx my : positive) (ex ey : Z) :
  let kx := Zdigits2 (Zpos mx) + ex in
  let ky := Zdigits2 (Zpos my) + ey in
  let q := fst (fst (SFdiv_core_binary prec emax (Zpos mx) ex (Zpos my) ey)) in
  let e' := snd (fst (SFdiv_core_binary prec emax (Zpos mx) ex (Zpos my) ey)) in
  0 <= q
  /\ e' <= fexp prec emax (Zdigits2 q + e')
  /\ Zdigits2 q + e' <= Z.max (kx - ky + 1) Exact.emin
  /\ (Exact.emin + 53 <= kx - ky -> 0 < q /\ kx - ky <= Zdigits2 q + e').
Proof.
  cbv zeta. unfold SFdiv_core_binary.
  set (dx := Zdigits2 (Zpos mx)). set (dy := Zdigits2 (Zpos my)).
  set (f := fexp prec emax (dx + ex - (dy + ey))).
  set (e' := Z.min f (ex - ey)).
  remember (ex - ey - e') as s eqn:Es.
  assert (Hs : 0 <= s) by (subst s e'; lia).
  set (m' := match s with Z0 => Zpos mx | Zpos _ => Z.shiftl (Zpos mx) s | Zneg _ => 0 end).
  assert (Hm' : m' = Zpos mx * 2 ^ s).
  { subst m'. clear Es. destruct s as [ | p | p]; try lia.
    rewrite Z.shiftl_mul_pow2 by lia. reflexivity. }
  clearbody m'.
  pose proof (Z.div_mod m' (Zpos my) ltac:(lia)) as Hdm.
  pose proof (Z.mod_pos_bound m' (Zpos my) ltac:(lia)) as Hmod.
  unfold Z.div, Z.modulo in Hdm, Hmod.
  destruct (Z.div_eucl m' (Zpos my)) as [q r]. cbn [fst snd].
  pose proof (Zdigits2_bounds (Zpos mx) ltac:(lia)) as [Hx1 Hx2].
  pose proof (Zdigits2_bounds (Zpos my) ltac:(lia)) as [Hy1 Hy2].
  pose proof (Zdigits2_pos (Zpos mx) ltac:(lia)) as Hdx.
  pose proof (Zdigits2_pos (Zpos my) ltac:(lia)) as Hdy.
  fold dx in Hx1, Hx2, Hdx. fold dy in Hy1, Hy2, Hdy.
  pose proof (pow2_gt0 s Hs) as Hps.
  assert (Hq0 : 0 <= q) by nia.
  (* digits of the quotient *)
  assert (Hlow : dx + s - dy <= Zdigits2 q).
  { destruct (Z.le_gt_cases (dx + s - dy) 0) as [Hle | Hgt].
    - pose proof (Zdigits2_nonneg q). lia.
    - apply Zdigits2_ge; [ | lia].
      (* 2^(dx+s-dy-1) * my <= 2^(dx-1+s) <= m' *)
      assert (A1 : 2 ^ (dx + s - dy - 1) * 2 ^ dy = 2 ^ (dx - 1) * 2 ^ s).
      { rewrite <- !Z.pow_add_r by lia. f_equal. lia. }
      pose proof (pow2_gt0 (dx + s - dy - 1) ltac:(lia)) as Hp1.
      pose proof (pow2_gt0 (dx - 1) ltac:(lia)) as Hp2.
      assert (A2 : 2 ^ (dx + s - dy - 1) * Zpos my < Zpos my * (q + 1)) by nia.
      nia. }
  assert (Hupp : Zdigits2 q <= Z.max (dx + s - dy + 1) 0).
  { destruct (Z.eq_dec q 0) as [-> | Hq]; [cbn; lia | ].
    assert (Hq1 : 1 <= q) by lia.
    assert (B0 : dy - 1 < dx + s).
    { destruct (Z.lt_ge_cases (dy - 1) (dx + s)) as [ | Hge]; [assumption | exfalso].
      assert (2 ^ (dx + s) <= 2 ^ (dy - 1)) by (apply Z.pow_le_mono_r; lia).
      rewrite Z.pow_add_r in H by lia. nia. }
    rewrite Z.max_l by lia.
    apply Zdigits2_le; [lia | | lia].
    assert (B1 : 2 ^ (dx + s - dy + 1) * 2 ^ (dy - 1) = 2 ^ dx * 2 ^ s).
    { rewrite <- !Z.pow_add_r by lia. f_equal. lia. }
    pose proof (pow2_gt0 (dy - 1) ltac:(lia)) as Hp3.
    pose proof (pow2_gt0 (dx + s - dy + 1) ltac:(lia)) as Hp4.
    nia. }
  split; [exact Hq0 | ].
  assert (Hf : Exact.emin <= f) by (subst f; apply fexp_ge_emin).
  split; [ | split].
  - apply Z.le_trans with f; [subst e'; lia | ].
    subst f. apply fexp_mono. lia.
  - destruct (Z.eq_dec q 0) as [-> | Hq].
    + cbn [Zdigits2] in *. subst e' f. rewrite ?fexp_eq in *.
      unfold Exact.emin in *. lia.
    + pose proof (Zdigits2_pos q ltac:(lia)). lia.
  - intros Hk. subst e' f. rewrite ?fexp_eq in *. unfold Exact.emin in *.
    assert (Hs53 : 53 <= dx + s - dy) by lia.
    assert (0 < Zdigits2 q) by lia.
    split; [destruct q; cbn in *; lia | lia].
Qed.

Lemma div_finite_valid (sx sy : bool) (mx my : positive) (ex ey : Z) :
  let k := Zdigits2 (Zpos mx) + ex - (Zdigits2 (Zpos my) + ey) in
  let r := div (S754_finite sx mx ex) (S754_finite sy my ey) in
  valid_binary prec emax r = true
  /\ (k + 1 <= 1023 -> Class.below (Z.max (k + 1) Exact.emin + 1) r)
  /\ (Exact.emin + 53 <= k -> Class.above k r).
Proof.
  cbv zeta. unfold div, SFdiv.
  pose proof (div_core_spec mx my ex ey) as H. cbv zeta in H.
  destruct (SFdiv_core_binary prec emax (Zpos mx) ex (Zpos my) ey) as [[q e'] l].
  cbn [fst snd] in H. destruct H as (Hq & H0 & Hup & Hlo).
  pose proof (binary_round_aux_valid (xorb sx sy) q e' l Hq H0) as (V & B & A).
  split; [exact V | split].
  - intros Hk. eapply below_mono; [ | apply B; unfold Exact.emin in *; lia]. lia.
  - intros Hk. destruct (Hlo Hk) as [Hq1 Hk1].
    eapply above_mono; [ | apply A; unfold Exact.emin in *; lia]. lia.
Qed.

Lemma div_valid (x y : number) :
  valid_binary prec emax (div x y) = true.
Proof.
  destruct x as [sx | sx | | sx mx ex]; destruct y as [sy | sy | | sy my ey];
    try reflexivity.
  apply (div_finite_valid sx sy mx my ex ey).
Qed.

Lemma Zdigits2_shiftl (m : positive) (n : Z) :
  0 <= n -> Zdigits2 (Zpos m * 2 ^ n) = Zdigits2 (Zpos m) + n.
Proof.
  intros Hn.
  pose proof (Zdigits2_bounds (Zpos m) ltac:(lia)) as [Hlo Hhi].
  pose proof (Zdigits2_pos (Zpos m) ltac:(lia)) as Hd.
  pose proof (pow2_gt0 n Hn) as Hp.
  apply Z.le_antisymm.
  - apply Zdigits2_le; [lia | | lia].
    rewrite Z.pow_add_r by lia. apply Z.mul_lt_mono_pos_r; assumption.
  - apply Zdigits2_ge; [ | lia].
    replace (Zdigits2 (Zpos m) + n - 1) with (Zdigits2 (Zpos m) - 1 + n) by lia.
    rewrite Z.pow_add_r by lia. apply Z.mul_le_mono_nonneg_r; lia.
Qed.

Lemma binary_round_valid (s : bool) (m : positive) (e : Z) :
  let k := Zdigits2 (Zpos m) + e in
  let r := binary_round prec emax s m e in
  valid_binary prec emax r = true
  /\ (k <= 1023 -> Class.below (Z.max k Exact.emin + 1) r)
  /\ (Exact.emin < k -> Class.above k r).
Proof.
  cbv zeta. unfold binary_round.
  set (f := fexp prec emax (Zpos (digits2_pos m) + e)).
  assert (Hz : let '(mz, ez) := shl_align m e f in
               Zdigits2 (Zpos mz) + ez = Zdigits2 (Zpos m) + e
               /\ ez <= fexp prec emax (Zdigits2 (Zpos mz) + ez)).
  { unfold shl_align. destruct (f - e) as [ | p | p] eqn:E.
    - split; [reflexivity | ]. cbn [Zdigits2]. fold f. lia.
    - split; [reflexivity | ]. cbn [Zdigits2]. fold f. lia.
    - change (Pos.iter xO m p) with (shift_pos p m).
      assert (Hsh : Zpos (shift_pos p m) = Zpos m * 2 ^ Zpos p).
      { rewrite shift_pos_correct. rewrite Z.mul_comm. reflexivity. }
      rewrite Hsh, Zdigits2_shiftl by lia.
      replace (Zdigits2 (Zpos m) + Zpos p + f) with (Zdigits2 (Zpos m) + e) by lia.
      split; [reflexivity | ]. cbn [Zdigits2]. fold f. lia. }
  destruct (shl_align m e f) as [mz ez]. destruct Hz as [Hk H0].
  pose proof (binary_round_aux_valid s (Zpos mz) ez loc_Exact ltac:(lia) H0)
    as (V & B & A).
  rewrite Hk in B, A.
  split; [exact V | split; [exact B | ]].
  intros H. apply A; lia.
Qed.

Lemma of_Z_valid (n : Z) : valid_binary prec emax (of_Z n) = true.
Proof.
  destruct n as [ | p | p]; [reflexivity | | ];
    apply (binary_round_valid _ p 0).
Qed.

Lemma Math_round_valid (x : number) :
  valid_binary prec emax x = true ->
  valid_binary prec emax (Math_round x) = true.
Proof.
  destruct x as [s | s | | s m e]; cbn [Math_round]; auto.
  intros V. destruct (0 <=? e); [exact V | ].
  destruct (_ =? 0); [reflexivity | apply of_Z_valid].
Qed.

Lemma within_mono (k k' : Z) (x : number) : k <= k' -> Class.within k x -> Class.within k' x.
Proof. unfold Class.within. destruct x; intuition lia. Qed.

Lemma at_least_mono (k k' : Z) (x : number) : k' <= k -> Class.at_least k x -> Class.at_least k' x.
Proof. unfold Class.at_least. destruct x; intuition lia. Qed.

Lemma within_nonneg (k : Z) (x : number) : Class.within k x -> Class.nonneg x.
Proof.
  unfold Class.within. destruct x as [s | s | | s m e]; cbn [Class.nonneg];
    intros [V H]; try tauto.
  destruct H as [-> _]. split; [reflexivity | ].
  apply valid_finite_bounds in V. tauto.
Qed.

Lemma within_finite (k : Z) (x : number) : Class.within k x -> is_finite x = true.
Proof. unfold Class.within. destruct x; cbn; tauto. Qed.

Lemma at_least_pos_finite (k : Z) (x : number) : Class.at_least k x -> Class.pos_finite x.
Proof. unfold Class.at_least. destruct x; cbn; tauto. Qed.

Lemma within_intro (k : Z) (x : number) :
  valid_binary prec emax x = true -> Class.nonneg x -> Class.below k x -> Class.within k x.
Proof.
  unfold Class.within. destruct x as [s | s | | s m e]; cbn [Class.nonneg Class.below];
    intros V N B; try tauto.
Qed.

Lemma at_least_intro (k : Z) (x : number) :
  valid_binary prec emax x = true -> Class.nonneg x -> is_finite x = true ->
  Class.above k x -> Class.at_least k x.
Proof.
  unfold Class.at_least. destruct x as [s | s | | s m e];
    cbn [Class.nonneg Class.above is_finite]; intros V N F A;
    try discriminate; try tauto.
Qed.

Lemma mul_within (a b : Z) (x y : number) :
  Class.within a x -> Class.within b y -> Exact.emin <= a + b <= 1023 ->
  Class.within (a + b + 1) (mul x y).
Proof.
  intros Bx By Hab.
  apply within_intro.
  - apply mul_valid; [apply Bx | apply By].
  - apply mul_nonneg_finite;
      eauto using within_finite, nonneg_not_lt_zero, within_nonneg.
  - destruct Bx as [Vx Hx], By as [Vy Hy].
    destruct x as [sx | sx | | sx mx ex]; destruct y as [sy | sy | | sy my ey];
      try contradiction; try exact I.
    destruct Hx as [_ Hx], Hy as [_ Hy].
    destruct (mul_finite_valid sx sy mx my ex ey Vx Vy) as (_ & B & _).
    cbn [Zdigits2] in B.
    eapply below_mono; [ | apply B; lia]. lia.
Qed.

Lemma div_within (a b : Z) (x y : number) :
  Class.within a x -> Class.at_least b y -> Exact.emin <= a - b + 1 <= 1023 ->
  Class.within (a - b + 2) (div x y).
Proof.
  intros Bx Ay Hab.
  apply within_intro.
  - apply div_valid.
  - apply div_nonneg_pos; eauto using within_nonneg, at_least_pos_finite.
  - destruct Bx as [Vx Hx], Ay as [Vy Hy].
    destruct x as [sx | sx | | sx mx ex]; destruct y as [sy | sy | | sy my ey];
      try contradiction; try exact I.
    destruct Hx as [_ Hx], Hy as [_ Hy].
    destruct (div_finite_valid sx sy mx my ex ey) as (_ & B & _).
    cbn [Zdigits2] in B.
    eapply below_mono; [ | apply B; lia]. lia.
Qed.

Lemma div_at_least (a a' b b' : Z) (x y : number) :
  Class.at_least a x -> Class.within a' x -> Class.at_least b y -> Class.within b' y ->
  Exact.emin + 53 <= a - b' -> Exact.emin <= a' - b + 1 <= 1023 ->
  Class.at_least (a - b') (div x y).
Proof.
  intros Ax Bx Ay By H1 H2.
  pose proof (div_within a' b x y Bx Ay H2) as Bd.
  apply at_least_intro.
  - apply div_valid.
  - eapply within_nonneg; exact Bd.
  - eapply within_finite; exact Bd.
  - destruct Ax as [Vx Hx], By as [Vy Hy], Ay as [_ Hy'].
    destruct x as [sx | sx | | sx mx ex]; destruct y as [sy | sy | | sy my ey];
      try contradiction.
    destruct Hx as [_ Hx], Hy as [_ Hy].
    destruct (div_finite_valid sx sy mx my ex ey) as (_ & _ & A).
    cbn [Zdigits2] in A.
    eapply above_mono; [ | apply A; lia]. lia.
Qed.

Lemma Math_round_integer (m : positive) (e a : Z) :
  e < 0 -> 0 <= a -> Zpos (digits2_pos m) + e <= a ->
  let n := (2 * Zpos m + 2 ^ (- e)) / 2 ^ (1 - e) in
  0 <= n /\ Zdigits2 n <= a + 1.
Proof.
  intros He Ha Hm. cbv zeta.
  pose proof (pow2_gt0 (- e) ltac:(lia)) as Hp.
  pose proof (pow2_gt0 (1 - e) ltac:(lia)) as Hp1.
  assert (Hn : 0 <= (2 * Zpos m + 2 ^ (- e)) / 2 ^ (1 - e)) by (apply Z.div_pos; lia).
  split; [exact Hn | ].
  apply Zdigits2_le; [lia | | exact Hn].
  apply Z.div_lt_upper_bound; [lia | ].
  pose proof (digits2_pos_bounds m) as [_ Hhi].
  assert (A1 : 2 ^ Zpos (digits2_pos m) <= 2 ^ (a - e))
    by (apply Z.pow_le_mono_r; lia).
  assert (A2 : 2 ^ (- e) <= 2 ^ (a - e)) by (apply Z.pow_le_mono_r; lia).
  replace (1 - e) with (1 + - e) by lia.
  replace (a + 1) with (1 + a) by lia.
  rewrite !Z.pow_add_r by lia. change (2 ^ 1) with 2.
  replace (a - e) with (a + - e) in A1, A2 by lia.
  rewrite Z.pow_add_r in A1, A2 by lia.
  nia.
Qed.

Lemma Math_round_within (a : Z) (x : number) :
  Class.within a x -> 0 <= a <= 1021 ->
  Class.within (a + 2) (Math_round x)
  /\ ((exists s, Math_round x = S754_zero s) \/ Class.at_least 1 (Math_round x)).
Proof.
  intros Bx Ha.
  pose proof (within_nonneg a x Bx) as Nx.
  destruct Bx as [Vx Hx].
  destruct x as [s | s | | s m e]; try contradiction.
  - split; [split; [reflexivity | exact I] | left; exists s; reflexivity].
  - destruct Hx as [-> Hm]. cbn [Math_round cond_Zopp].
    destruct (0 <=? e) eqn:E0.
    + apply Z.leb_le in E0. split.
      * split; [exact Vx | split; [reflexivity | lia]].
      * right. split; [exact Vx | split; [reflexivity | lia]].
    + apply Z.leb_gt in E0.
      destruct (Math_round_integer m e a E0 ltac:(lia) Hm) as [Hn Hd].
      set (n := (2 * Zpos m + 2 ^ (- e)) / 2 ^ (1 - e)) in *.
      destruct (n =? 0) eqn:En.
      * split; [split; [reflexivity | exact I] | left; exists false; reflexivity].
      * apply Z.eqb_neq in En.
        destruct n as [ | p | p]; try lia.
        destruct (binary_round_valid false p 0) as (V & B & A).
        pose proof (binary_round_signed false p 0) as S.
        pose proof (Zdigits2_pos (Zpos p) ltac:(lia)) as Hdp.
        assert (HB : Zdigits2 (Z.pos p) + 0 <= 1023) by lia.
        assert (HA : Exact.emin < Zdigits2 (Z.pos p) + 0) by (unfold Exact.emin; lia).
        specialize (B HB). specialize (A HA).
        change (of_Z (Zpos p)) with (binary_round prec emax false p 0).
        destruct (binary_round prec emax false p 0) as [s' | s' | | s' m' e'];
          cbn [Class.below Class.above Class.signed] in S, B, A; try contradiction.
        -- destruct S as [-> _]. split.
           ++ split; [exact V | split; [reflexivity | ]].
              unfold Exact.emin in *. lia.
           ++ right. split; [exact V | split; [reflexivity | lia]].
Qed.

Lemma rounded_within (a : Z) (x : number) :
  Class.within a x -> 0 <= a <= 1000 -> Class.within (a + 5) (Spec.rounded 2 x).
Proof.
  intros Bx Ha. unfold Spec.rounded.
  assert (B100 : Class.within 7 (of_Z (10 ^ 2))) by (split; [reflexivity | split; [reflexivity | cbn; lia]]).
  assert (A100 : Class.at_least 7 (of_Z (10 ^ 2))) by (split; [reflexivity | split; [reflexivity | cbn; lia]]).
  pose proof (mul_within a 7 x _ Bx B100 ltac:(unfold Exact.emin; lia)) as B1.
  destruct (Math_round_within _ _ B1 ltac:(lia)) as [B2 _].
  pose proof (div_within _ 7 _ _ B2 A100 ltac:(unfold Exact.emin; lia)) as B3.
  eapply within_mono; [ | exact B3]. lia.
Qed.

(** *** The order of exact values *)

Ltac order_cases :=
  unfold Exact.leb, Exact.ltb, Exact.eqb, Exact.compare;
  repeat match goal with
         | s : bool |- _ => destruct s
         end;
  repeat match goal with
         | |- context [(?a ?= ?b)%Z] => destruct (Z.compare_spec a b)
         | H : context [(?a ?= ?b)%Z] |- _ => destruct (Z.compare_spec a b)
         end;
  cbn; try reflexivity; try discriminate; try lia; auto.

Lemma exact_ltb_leb_trans (x y z : number) :
  Exact.ltb x y = true -> Exact.leb y z = true -> Exact.ltb x z = true.
Proof.
  destruct x as [sx | sx | | sx mx ex]; destruct y as [sy | sy | | sy my ey];
    destruct z as [sz | sz | | sz mz ez];
    try (cbn; intros; discriminate);
    try (order_cases; fail).
Qed.

Lemma exact_total (x y : number) :
  is_nan x = false -> is_nan y = false ->
  Exact.ltb x y = false -> Exact.leb y x = true.
Proof.
  destruct x as [sx | sx | | sx mx ex]; destruct y as [sy | sy | | sy my ey];
    try (cbn; intros; discriminate);
    try (order_cases; fail).
Qed.

(** *** [sort] with a comparison function that subtracts keys *)

Section SortByKey.
Variable A : Type.
Variable key : A -> number.
Variable pos : A -> nat.

Local Abbreviation comparefn := (fun a b : A => sub (key a) (key b)).
Local Abbreviation key_order := (Spec.key_order key pos).

Lemma sort_insert_In (x y : A) (l : list A) :
  In y (sort_insert comparefn x l) <-> y = x \/ In y l.
Proof.
  induction l as [ | z l IH]; cbn [sort_insert].
  - cbn. intuition congruence.
  - destruct (lt (comparefn x z) (of_Z 0)); cbn [In] in *.
    + intuition congruence.
    + rewrite IH. intuition congruence.
Qed.

Lemma sort_insert_Permutation (x : A) (l : list A) :
  Permutation (sort_insert comparefn x l) (x :: l).
Proof.
  induction l as [ | z l IH]; cbn [sort_insert].
  - reflexivity.
  - destruct (lt (comparefn x z) (of_Z 0)).
    + reflexivity.
    + rewrite IH. apply perm_swap.
Qed.

Lemma sort_fold_Permutation (l acc : list A) :
  Permutation (fold_left (fun acc x => sort_insert comparefn x acc) l acc)
              (acc ++ l).
Proof.
  revert acc. induction l as [ | x l IH]; intros acc; cbn [fold_left].
  - rewrite app_nil_r. reflexivity.
  - rewrite IH, sort_insert_Permutation.
    change (x :: acc) with ([x] ++ acc).
    rewrite (Permutation_app_comm [x] acc), <- app_assoc. reflexivity.
Qed.

Lemma sort_Permutation (l : list A) : Permutation (sort comparefn l) l.
Proof. unfold sort. rewrite sort_fold_Permutation. reflexivity. Qed.

Lemma sort_insert_sorted (x : A) (l : list A) :
  Class.nonneg (key x) ->
  Forall (fun a => Class.nonneg (key a)) l ->
  Forall (fun a => (pos a < pos x)%nat) l ->
  StronglySorted key_order l ->
  StronglySorted key_order (sort_insert comparefn x l).
Proof.
  intros Hx. induction l as [ | y l IH]; intros Hn Hp Hs; cbn [sort_insert].
  - constructor; constructor.
  - inversion Hn as [ | ? ? Hny Hnl]; subst.
    inversion Hp as [ | ? ? Hpy Hpl]; subst.
    inversion Hs as [ | ? ? Hsl Hyl]; subst.
    rewrite sub_lt_zero by assumption.
    destruct (Exact.ltb (key x) (key y)) eqn:E.
    + constructor; [assumption | ].
      constructor; [left; assumption | ].
      apply Forall_forall. intros z Hz. left.
      apply exact_ltb_leb_trans with (1 := E).
      rewrite Forall_forall in Hyl. specialize (Hyl z Hz).
      unfold Exact.leb. destruct Hyl as [-> | [-> _]]; auto using orb_true_r.
    + constructor; [apply IH; assumption | ].
      apply Forall_forall. intros z Hz. apply sort_insert_In in Hz.
      destruct Hz as [-> | Hz].
      * pose proof (exact_total _ _ (nonneg_not_nan _ Hx) (nonneg_not_nan _ Hny) E) as Ht.
        unfold Exact.leb in Ht. apply orb_true_iff in Ht.
        destruct Ht as [Ht | Ht]; [left | right]; auto.
      * rewrite Forall_forall in Hyl. auto.
Qed.

Lemma sort_fold_sorted (l : list A) : forall acc : list A,
  Forall (fun a => Class.nonneg (key a)) acc ->
  Forall (fun a => Class.nonneg (key a)) l ->
  StronglySorted key_order acc ->
  Forall (fun a => Forall (fun b => (pos a < pos b)%nat) l) acc ->
  StronglySorted (fun a b => (pos a < pos b)%nat) l ->
  StronglySorted key_order
    (fold_left (fun acc x => sort_insert comparefn x acc) l acc).
Proof.
  induction l as [ | x l IH]; intros acc Hna Hnl Hs Hal Hl; cbn [fold_left].
  - assumption.
  - inversion Hnl as [ | ? ? Hnx Hnl']; subst.
    inversion Hl as [ | ? ? Hl' Hxl]; subst.
    apply IH.
    + apply Forall_forall. intros z Hz. apply sort_insert_In in Hz.
      destruct Hz as [-> | Hz]; [assumption | ].
      rewrite Forall_forall in Hna. auto.
    + assumption.
    + apply sort_insert_sorted; try assumption.
      apply Forall_forall. intros z Hz.
      rewrite Forall_forall in Hal. specialize (Hal z Hz).
      inversion Hal; assumption.
    + apply Forall_forall. intros z Hz. apply sort_insert_In in Hz.
      destruct Hz as [-> | Hz]; [assumption | ].
      rewrite Forall_forall in Hal. specialize (Hal z Hz).
      inversion Hal; assumption.
    + assumption.
Qed.

Lemma sort_sorted (l : list A) :
  Forall (fun a => Class.nonneg (key a)) l ->
  StronglySorted (fun a b => (pos a < pos b)%nat) l ->
  StronglySorted key_order (sort comparefn l).
Proof.
  intros Hn Hl. unfold sort. apply sort_fold_sorted; auto; constructor.
Qed.

End SortByKey.

(** ** The calculator *)

Import CONFIG Calculator RoutesDB Spec.

Lemma get_own_In {A : Type} (o : list (jstring * A)) (k : jstring) (v : A) :
  get_own o k = Some v -> In v (map snd o).
Proof.
  induction o as [ | [k' v'] o IH]; cbn [get_own map snd In]; [discriminate | ].
  destruct (string_eqb k' k).
  - intros [= ->]. left; reflexivity.
  - intros H. right. auto.
Qed.

(** [Math.round] sends a tie towards [+Infinity], also below zero. *)
Lemma Math_round_ties :
  Math_round (decimal 5 1) = of_Z 1
  /\ Math_round (decimal 25 1) = of_Z 3
  /\ Math_round (decimal 24 1) = of_Z 2
  /\ Math_round (SFopp (decimal 25 1)) = of_Z (-2)
  /\ Math_round (SFopp (decimal 5 1)) = S754_zero true
  /\ Math_round (decimal 4 1) = S754_zero false.
Proof. repeat split. Qed.

Lemma rounded_2 (x : number) :
  (Math_round (x * #100) / #100)%js = rounded 2 x.
Proof. reflexivity. Qed.

(** C4.  [calculateEmission(100, "carro")] is [12] and
    [calculateEmission(100, "bicicleta")] is [0]; the factor table gives the
    car the factor [0.12] and the bicycle the factor [0].  The keys of the
    table are the Portuguese mode names the sources use for the car and the
    bicycle. *)
Theorem calculateEmission_examples :
  get_own EMISSION_FACTORS (lit "carro") = Some (decimal 12 2)
  /\ get_own EMISSION_FACTORS (lit "bicicleta") = Some (of_Z 0)
  /\ calculateEmission (VNumber (of_Z 100)) (lit "carro") = of_Z 12
  /\ calculateEmission (VNumber (of_Z 100)) (lit "bicicleta") = of_Z 0.
Proof. repeat split; vm_compute; reflexivity. Qed.

Local Open Scope js_scope.

Lemma refused_cases (v : value) :
  refused v \/ exists d, v = VNumber d /\ (d < #0) = false.
Proof.
  destruct v as [ | | b | x | s | ]; try (left; left; reflexivity).
  destruct (x < #0) eqn:E.
  - left; right; exists x; auto.
  - right; exists x; auto.
Qed.

Lemma factor_cases (k : jstring) (factor : number) :
  get_own EMISSION_FACTORS k = Some factor ->
  factor = #0 \/ factor = decimal 12 2 \/ factor = decimal 89 3
  \/ factor = decimal 96 2.
Proof.
  intros H. apply get_own_In in H. cbn in H. intuition auto.
Qed.

(** C5.  For a distance of type number that is not below zero and a mode
    whose trimmed, lower-cased form is a key of the factor table,
    [calculateEmission] returns distance times factor rounded to 2 decimal
    places (round half up on the scaled value).  When the distance is
    refused (it is not of type number, or it is below zero) or the
    normalised mode is not a key, it returns [0].  In particular a distance
    of [0] gives [0] for every valid mode and a distance of [-5] gives [0].
    "Not a number" is read as the source tests it, by [typeof]; the value
    NaN is of type number. *)
Theorem calculateEmission_spec :
  (forall (d : number) (transportMode : jstring) (factor : number),
      (d < #0) = false ->
      get_own EMISSION_FACTORS (toLowerCase (trim transportMode)) = Some factor ->
      calculateEmission (VNumber d) transportMode = rounded 2 (d * factor))
  /\ (forall (v : value) (transportMode : jstring),
         refused v -> calculateEmission v transportMode = #0)
  /\ (forall (v : value) (transportMode : jstring),
         get_own EMISSION_FACTORS (toLowerCase (trim transportMode)) = None ->
         calculateEmission v transportMode = #0)
  /\ (forall (transportMode : jstring) (factor : number),
         get_own EMISSION_FACTORS (toLowerCase (trim transportMode)) = Some factor ->
         calculateEmission (VNumber #0) transportMode = #0)
  /\ (forall transportMode : jstring,
         calculateEmission (VNumber (SFopp #5)) transportMode = #0).
Proof.
  split; [ | split; [ | split; [ | split]]].
  - intros d k f Hd Hk. unfold calculateEmission. rewrite Hd, Hk. reflexivity.
  - intros v k [Hv | (x & -> & Hx)]; unfold calculateEmission.
    + destruct v; try reflexivity; discriminate.
    + rewrite Hx. reflexivity.
  - intros v k Hk. unfold calculateEmission. rewrite Hk.
    destruct v as [ | | b | x | s | ]; try reflexivity.
    destruct (x < #0); reflexivity.
  - intros k f Hk. unfold calculateEmission. rewrite Hk.
    destruct (factor_cases _ _ Hk) as [-> | [-> | [-> | ->]]];
      vm_compute; reflexivity.
  - intros k. reflexivity.
Qed.

Lemma calculateEmission_spec_witness :
  ((#250 < #0) = false
   /\ get_own EMISSION_FACTORS (toLowerCase (trim (lit " Onibus "))) = Some (decimal 89 3)
   /\ calculateEmission (VNumber #250) (lit " Onibus ")
      = rounded 2 (#250 * decimal 89 3))
  /\ (refused (VString (lit "250"))
      /\ calculateEmission (VString (lit "250")) (lit "carro") = #0)
  /\ (get_own EMISSION_FACTORS (toLowerCase (trim (lit "aviao"))) = None
      /\ calculateEmission (VNumber #100) (lit "aviao") = #0)
  /\ calculateEmission (VNumber #0) (lit "CAMINHAO") = #0.
Proof.
  destruct calculateEmission_spec as (H1 & H2 & H3 & H4 & _).
  split; [ | split; [ | split]].
  - split; [reflexivity | split; [reflexivity | ]].
    apply H1; reflexivity.
  - split; [left; reflexivity | ].
    apply H2. left; reflexivity.
  - split; [reflexivity | ]. apply H3. reflexivity.
  - apply (H4 (lit "CAMINHAO") (decimal 96 2)). reflexivity.
Defined.

(** C8.  For an emission of type number that is not below zero,
    [calculateCarbonCredits] returns the emission divided by
    [KG_PER_CREDIT], rounded to 4 decimal places; for a number of credits
    that is not below zero, [estimateCreditPrice] returns
    [min = credits * PRICE_MIN_BRL], [max = credits * PRICE_MAX_BRL] and
    [average = (min + max) / 2], each rounded to 2 decimal places.  A
    refused argument gives [0], respectively the all-zero price.  With 1000
    kg per credit and prices 50 and 150, 1000 kg are 1 credit and 1 credit
    costs between 50 and 150, 100 on average. *)
Theorem credits_and_price_spec :
  (forall e : number,
      (e < #0) = false ->
      calculateCarbonCredits (VNumber e)
      = rounded 4 (e / CARBON_CREDIT.KG_PER_CREDIT))
  /\ (forall v : value, refused v -> calculateCarbonCredits v = #0)
  /\ (forall c : number,
         (c < #0) = false ->
         let min := c * CARBON_CREDIT.PRICE_MIN_BRL in
         let max := c * CARBON_CREDIT.PRICE_MAX_BRL in
         estimateCreditPrice (VNumber c)
         = Price (rounded 2 min) (rounded 2 max) (rounded 2 ((min + max) / #2)))
  /\ (forall v : value, refused v -> estimateCreditPrice v = Price #0 #0 #0)
  /\ CARBON_CREDIT.KG_PER_CREDIT = #1000
  /\ CARBON_CREDIT.PRICE_MIN_BRL = #50
  /\ CARBON_CREDIT.PRICE_MAX_BRL = #150
  /\ calculateCarbonCredits (VNumber #1000) = #1
  /\ estimateCreditPrice (VNumber #1) = Price #50 #150 #100.
Proof.
  split; [ | split; [ | split; [ | split; [ | repeat split]]]].
  - intros e He. unfold calculateCarbonCredits. rewrite He. reflexivity.
  - intros v [Hv | (x & -> & Hx)]; unfold calculateCarbonCredits.
    + destruct v; try reflexivity; discriminate.
    + rewrite Hx. reflexivity.
  - intros c Hc. unfold estimateCreditPrice. rewrite Hc. reflexivity.
  - intros v [Hv | (x & -> & Hx)]; unfold estimateCreditPrice.
    + destruct v; try reflexivity; discriminate.
    + rewrite Hx. reflexivity.
Qed.

Lemma credits_and_price_spec_witness :
  ((decimal 2225 2 < #0) = false
   /\ calculateCarbonCredits (VNumber (decimal 2225 2))
      = rounded 4 (decimal 2225 2 / CARBON_CREDIT.KG_PER_CREDIT))
  /\ (refused (VNumber (SFopp #3))
      /\ calculateCarbonCredits (VNumber (SFopp #3)) = #0)
  /\ ((decimal 15 1 < #0) = false
      /\ estimateCreditPrice (VNumber (decimal 15 1))
         = Price (rounded 2 (decimal 15 1 * #50)) (rounded 2 (decimal 15 1 * #150))
                 (rounded 2 ((decimal 15 1 * #50 + decimal 15 1 * #150) / #2)))
  /\ (refused VUndefined /\ estimateCreditPrice VUndefined = Price #0 #0 #0).
Proof.
  destruct credits_and_price_spec as (H1 & H2 & H3 & H4 & _).
  split; [ | split; [ | split]].
  - split; [reflexivity | apply H1; reflexivity].
  - assert (R : refused (VNumber (SFopp #3)))
      by (right; exists (SFopp #3); split; reflexivity).
    split; [exact R | apply H2; exact R].
  - split; [reflexivity | apply (H3 (decimal 15 1)); reflexivity].
  - split; [left; reflexivity | apply H4; left; reflexivity].
Defined.

(** *** Facts on [calculateAllModes] *)

Lemma pos_finite_100 : Class.pos_finite #100.
Proof. reflexivity. Qed.

Lemma rounded_nonneg (k : Z) (x : number) :
  Class.pos_finite (of_Z (10 ^ k)) -> Class.nonneg x ->
  Class.nonneg (rounded k x).
Proof.
  intros Hk Hx. unfold rounded.
  apply div_nonneg_pos; [ | exact Hk].
  apply Math_round_nonneg. apply mul_nonneg_pos; assumption.
Qed.

Lemma calculateEmission_nonneg (d : number) (transportMode : jstring) :
  is_finite d = true -> (d < #0) = false ->
  Class.nonneg (calculateEmission (VNumber d) transportMode).
Proof.
  intros Hf Hd. unfold calculateEmission. rewrite Hd.
  destruct (get_own EMISSION_FACTORS (toLowerCase (trim transportMode)))
    as [f | ] eqn:Hk; [ | exact I].
  rewrite rounded_2. apply rounded_nonneg; [exact pos_finite_100 | ].
  apply mul_nonneg_finite; try assumption;
    destruct (factor_cases _ _ Hk) as [-> | [-> | [-> | ->]]]; reflexivity.
Qed.

Lemma calculateAllModes_number (d : number) :
  (d < #0) = false ->
  calculateAllModes (VNumber d)
  = sort (fun a b => emission a - emission b)
         (map (pushed (VNumber d)) (own_keys EMISSION_FACTORS)).
Proof.
  intros Hd. unfold calculateAllModes. rewrite Hd. reflexivity.
Qed.

Lemma calculateAllModes_In (d : number) (x : comparison_entry) :
  (d < #0) = false ->
  In x (calculateAllModes (VNumber d)) ->
  exists k, In k (own_keys EMISSION_FACTORS) /\ x = pushed (VNumber d) k.
Proof.
  intros Hd Hx. rewrite calculateAllModes_number in Hx by assumption.
  apply (Permutation_in _ (sort_Permutation comparison_entry emission _)) in Hx.
  apply in_map_iff in Hx. destruct Hx as (k & <- & Hk). exists k; auto.
Qed.

Lemma divisor_not_zero (v : value) : (divisor v === #0) = false.
Proof.
  unfold divisor.
  destruct (calculateEmission v (lit "carro") === #0) eqn:E; [reflexivity | exact E].
Qed.

Lemma divisor_pos_finite (d : number) :
  is_finite d = true -> (d < #0) = false ->
  is_finite (calculateEmission (VNumber d) (lit "carro")) = true ->
  Class.pos_finite (divisor (VNumber d)).
Proof.
  intros Hf Hd Hc. unfold divisor.
  pose proof (calculateEmission_nonneg d (lit "carro") Hf Hd) as Hn.
  destruct (calculateEmission (VNumber d) (lit "carro")) as [s | s | | s m e];
    try discriminate; try contradiction.
  - reflexivity.
  - destruct Hn as [-> _]. reflexivity.
Qed.

(** C10.  [calculateAllModes] returns the empty sequence exactly when its
    argument is refused: it is not of type number, or it is a number below
    zero.  "Not a number" is read as the source tests it, by [typeof]. *)
Theorem calculateAllModes_empty_iff (v : value) :
  calculateAllModes v = [] <-> refused v.
Proof.
  split.
  - intros H. destruct (refused_cases v) as [R | (d & -> & Hd)]; [exact R | ].
    rewrite calculateAllModes_number in H by assumption.
    pose proof (Permutation_length (sort_Permutation comparison_entry emission
                  (map (pushed (VNumber d)) (own_keys EMISSION_FACTORS)))) as L.
    rewrite H in L. discriminate L.
  - intros [Hv | (x & -> & Hx)]; unfold calculateAllModes.
    + destruct v; try reflexivity; discriminate.
    + rewrite Hx. reflexivity.
Qed.

Lemma calculateAllModes_empty_iff_witness :
  refused (VNumber (SFopp (decimal 5 1)))
  /\ calculateAllModes (VNumber (SFopp (decimal 5 1))) = [].
Proof.
  assert (R : refused (VNumber (SFopp (decimal 5 1))))
    by (right; exists (SFopp (decimal 5 1)); split; reflexivity).
  split; [exact R | ].
  apply (proj2 (calculateAllModes_empty_iff (VNumber (SFopp (decimal 5 1))))).
  exact R.
Defined.

(** C2, evaluated where it fails.  NaN is of type number and does not
    compare below zero, so the validation lets it through and it comes out
    of every function: no result field is the zero the specification
    promises.  [Infinity] passes the validation as well, and times the
    factor [0] of the bicycle it is NaN. *)
Theorem NaN_passes_validation :
  calculateEmission (VNumber NaN) (lit "carro") = NaN
  /\ calculateSavings (VNumber NaN) (VNumber #12) = Savings NaN NaN
  /\ calculateCarbonCredits (VNumber NaN) = NaN
  /\ estimateCreditPrice (VNumber NaN) = Price NaN NaN NaN
  /\ map emission (calculateAllModes (VNumber NaN)) = [NaN; NaN; NaN; NaN]
  /\ map percentageVsCar (calculateAllModes (VNumber NaN))
     = [NaN; NaN; NaN; NaN]
  /\ calculateEmission (VNumber Infinity) (lit "bicicleta") = NaN.
Proof. repeat split. Qed.

(** *** Magnitudes along [calculateAllModes] *)

Lemma lt_within (d : number) (mc : positive) (ec : Z) :
  valid_binary prec emax d = true ->
  valid_binary prec emax (S754_finite false mc ec) = true ->
  (d < #0) = false -> (d < S754_finite false mc ec) = true ->
  Class.within (Zpos (digits2_pos mc) + ec) d.
Proof.
  intros Vd Vc H0 Hlt.
  destruct d as [s | s | | s m e]; try (destruct s; discriminate).
  - split; [reflexivity | exact I].
  - discriminate.
  - destruct s; [discriminate | ]. split; [exact Vd | split; [reflexivity | ]].
    unfold lt, SFltb in Hlt. rewrite (SFcompare_exact _ _ Vd Vc) in Hlt.
    unfold Exact.compare, Exact.ulps in Hlt. cbn [cond_Zopp] in Hlt.
    destruct (Z.compare_spec (Zpos m * 2 ^ (e - Exact.emin))
                (Zpos mc * 2 ^ (ec - Exact.emin))) as [ | Hc | ]; try discriminate.
    apply valid_finite_bounds in Vd, Vc.
    destruct Vd as (Hd & _), Vc as (Hec & _).
    pose proof (digits2_pos_bounds mc) as [_ Hhi].
    pose proof (pow2_gt0 (ec - Exact.emin) ltac:(lia)) as Hp.
    assert (A : (Zpos m * 2 ^ (e - Exact.emin)
                 < 2 ^ (Zpos (digits2_pos mc) + (ec - Exact.emin)))%Z).
    { rewrite Z.pow_add_r by lia. nia. }
    apply Zdigits2_le in A; [ | lia | lia].
    rewrite Zdigits2_shiftl in A by lia. cbn [Zdigits2] in A. lia.
Qed.

Lemma factor_within (k : jstring) (factor : number) :
  get_own EMISSION_FACTORS k = Some factor -> Class.within 0 factor.
Proof.
  intros H.
  destruct (factor_cases _ _ H) as [-> | [-> | [-> | ->]]];
    (split; [reflexivity | vm_compute;
                          first [exact I | split; [reflexivity | discriminate]]]).
Qed.

Lemma calculateEmission_within (d : number) (transportMode : jstring) :
  Class.within 897 d ->
  Class.within 903 (calculateEmission (VNumber d) transportMode).
Proof.
  intros Bd. unfold calculateEmission.
  rewrite (nonneg_not_lt_zero d (within_nonneg _ _ Bd)).
  destruct (get_own EMISSION_FACTORS (toLowerCase (trim transportMode)))
    as [f | ] eqn:Hk; [ | split; [reflexivity | exact I]].
  rewrite rounded_2.
  pose proof (mul_within 897 0 d f Bd (factor_within _ _ Hk)
                ltac:(unfold Exact.emin; lia)) as B1.
  apply (rounded_within 898 _ B1). lia.
Qed.

Lemma within_100 : Class.within 7 #100.
Proof. split; [reflexivity | split; [reflexivity | vm_compute; discriminate]]. Qed.

Lemma at_least_100 : Class.at_least 7 #100.
Proof. split; [reflexivity | split; [reflexivity | vm_compute; discriminate]]. Qed.

Lemma rounded_zero_or_at_least (a : Z) (x : number) :
  Class.within a x -> (0 <= a <= 1000)%Z ->
  (rounded 2 x === #0) = true \/ Class.at_least (-6) (rounded 2 x).
Proof.
  intros Bx Ha. unfold rounded.
  pose proof (mul_within a 7 x _ Bx within_100 ltac:(unfold Exact.emin; lia)) as B1.
  destruct (Math_round_within _ _ B1 ltac:(lia)) as [B2 [[s Hz] | A2]].
  - left. change (of_Z (10 ^ 2)) with #100. rewrite Hz. destruct s; reflexivity.
  - right. change (of_Z (10 ^ 2)) with #100.
    apply (div_at_least 1 (a + 7 + 1 + 2) 7 7 _ _ A2 B2 at_least_100 within_100);
      unfold Exact.emin; lia.
Qed.

Lemma divisor_at_least (d : number) :
  Class.within 897 d -> Class.at_least (-9) (divisor (VNumber d)).
Proof.
  intros Bd. unfold divisor.
  destruct (calculateEmission (VNumber d) (lit "carro") === #0) eqn:E.
  - split; [reflexivity | split; [reflexivity | vm_compute; discriminate]].
  - revert E. unfold calculateEmission.
    rewrite (nonneg_not_lt_zero d (within_nonneg _ _ Bd)).
    change (get_own EMISSION_FACTORS (toLowerCase (trim (lit "carro"))))
      with (Some (decimal 12 2)).
    cbv iota beta zeta. rewrite rounded_2. intros E.
    assert (Hf : Class.within 0 (decimal 12 2))
      by (apply (factor_within (lit "carro")); reflexivity).
    pose proof (mul_within 897 0 d _ Bd Hf ltac:(unfold Exact.emin; lia)) as B1.
    destruct (rounded_zero_or_at_least 898 _ B1 ltac:(lia)) as [Hz | A].
    + rewrite Hz in E. discriminate.
    + eapply at_least_mono; [ | exact A]. lia.
Qed.

Lemma pushed_percentage_within (d : number) (k : jstring) :
  Class.within 897 d ->
  Class.within 927 (percentageVsCar (pushed (VNumber d) k)).
Proof.
  intros Bd. unfold pushed. cbn [percentageVsCar].
  pose proof (calculateEmission_within d k Bd) as Be.
  pose proof (divisor_at_least d Bd) as Ac.
  pose proof (div_within 903 (-9) _ _ Be Ac ltac:(unfold Exact.emin; lia)) as B1.
  pose proof (mul_within _ 7 _ _ B1 within_100 ltac:(unfold Exact.emin; lia)) as B2.
  eapply within_mono; [ | apply (rounded_within _ _ B2); lia]. lia.
Qed.

Lemma percentage_finite (d : number) (x : comparison_entry) :
  valid_binary prec emax d = true ->
  (d < #0) = false -> (d < #(10 ^ 270)) = true ->
  In x (calculateAllModes (VNumber d)) ->
  is_finite (percentageVsCar x) = true.
Proof.
  intros Vd H0 Hlt Hx.
  assert (EQ : #(10 ^ 270) = S754_finite false 8524789415648860 844)
    by (vm_compute; reflexivity).
  rewrite EQ in Hlt.
  pose proof (lt_within d 8524789415648860 844 Vd eq_refl H0 Hlt) as Bd.
  change (Zpos (digits2_pos 8524789415648860) + 844)%Z with 897%Z in Bd.
  destruct (calculateAllModes_In d x H0 Hx) as (k & _ & ->).
  eapply within_finite. apply pushed_percentage_within. exact Bd.
Qed.

Lemma calculateEmission_valid (v : value) (transportMode : jstring) :
  valid_binary prec emax (calculateEmission v transportMode) = true.
Proof.
  unfold calculateEmission. destruct v as [ | | b | d | s | ]; try reflexivity.
  destruct (d < #0); [reflexivity | ].
  destruct (get_own EMISSION_FACTORS (toLowerCase (trim transportMode)));
    [apply div_valid | reflexivity].
Qed.

Lemma pushed_valid (v : value) (k : jstring) :
  valid_binary prec emax (emission (pushed v k)) = true
  /\ valid_binary prec emax (percentageVsCar (pushed v k)) = true.
Proof.
  unfold pushed. cbn [emission percentageVsCar]. split.
  - apply calculateEmission_valid.
  - unfold rounded. apply div_valid.
Qed.

Lemma StronglySorted_impl {A : Type} (R R' : A -> A -> Prop) (l : list A) :
  (forall a b, In a l -> In b l -> R a b -> R' a b) ->
  StronglySorted R l -> StronglySorted R' l.
Proof.
  intros H S. induction S as [ | a l S IH F]; constructor.
  - apply IH. intros x y Hx Hy. apply H; right; assumption.
  - rewrite Forall_forall in *. intros b Hb.
    apply H; [left; reflexivity | right; exact Hb | apply F; exact Hb].
Qed.

Lemma key_order_in_order (a b : comparison_entry) :
  valid_binary prec emax (emission a) = true ->
  valid_binary prec emax (emission b) = true ->
  key_order emission position a b -> in_order a b.
Proof.
  intros Va Vb. unfold key_order, in_order, lt, strict_eq, SFltb, SFeqb,
    Exact.ltb, Exact.eqb.
  rewrite (SFcompare_exact _ _ Va Vb). tauto.
Qed.

Lemma pushed_percentage_not_nan (d : number) (k : jstring) :
  is_finite d = true -> (d < #0) = false ->
  is_finite (calculateEmission (VNumber d) (lit "carro")) = true ->
  Class.nonneg (percentageVsCar (pushed (VNumber d) k)).
Proof.
  intros Hf Hd Hc. unfold pushed. cbn [percentageVsCar].
  apply rounded_nonneg; [exact pos_finite_100 | ].
  apply mul_nonneg_pos; [ | exact pos_finite_100].
  apply div_nonneg_pos.
  - apply calculateEmission_nonneg; assumption.
  - apply divisor_pos_finite; assumption.
Qed.

Lemma pushed_percentage_infinite (d : number) (k : jstring) :
  Class.pos_finite (divisor (VNumber d)) ->
  calculateEmission (VNumber d) k = Infinity ->
  percentageVsCar (pushed (VNumber d) k) = Infinity.
Proof.
  intros Hc He. unfold pushed. cbn [percentageVsCar]. rewrite He.
  destruct (divisor (VNumber d)) as [s | s | | s m e]; try contradiction.
  cbn in Hc. subst s. reflexivity.
Qed.

(** C9, as the code has it.  Each percentage is the emission of the entry
    divided by the divisor, times 100, rounded to 2 decimal places; the
    divisor is the car emission, or 0.001 when the car emission is zero, so
    the divisor is never zero.  For a binary64 distance that is not below
    zero and is less than 1e270, every percentage is finite.  Beyond that
    bound: for a finite distance that is not below zero and whose car
    emission is finite, no percentage is NaN, and the percentage of an
    entry whose own emission has overflowed to [Infinity] is [Infinity]. *)
Theorem percentageVsCar_spec (d : number) :
  (d < #0) = false ->
  (forall x, In x (calculateAllModes (VNumber d)) ->
             percentageVsCar x
             = rounded 2 ((emission x / divisor (VNumber d)) * #100))
  /\ ((calculateEmission (VNumber d) (lit "carro") === #0) = true ->
      divisor (VNumber d) = decimal 1 3)
  /\ ((calculateEmission (VNumber d) (lit "carro") === #0) = false ->
      divisor (VNumber d) = calculateEmission (VNumber d) (lit "carro"))
  /\ (divisor (VNumber d) === #0) = false
  /\ (valid_binary prec emax d = true -> (d < #(10 ^ 270)) = true ->
      forall x, In x (calculateAllModes (VNumber d)) ->
                is_finite (percentageVsCar x) = true)
  /\ (is_finite d = true ->
      is_finite (calculateEmission (VNumber d) (lit "carro")) = true ->
      forall x, In x (calculateAllModes (VNumber d)) ->
                is_nan (percentageVsCar x) = false
                /\ (emission x = Infinity -> percentageVsCar x = Infinity)).
Proof.
  intros Hd. split; [ | split; [ | split; [ | split; [ | split]]]].
  - intros x Hx. destruct (calculateAllModes_In d x Hd Hx) as (k & _ & ->).
    reflexivity.
  - intros E. unfold divisor. rewrite E. reflexivity.
  - intros E. unfold divisor. rewrite E. reflexivity.
  - apply divisor_not_zero.
  - intros Vd Hlt x Hx. apply (percentage_finite d x Vd Hd Hlt Hx).
  - intros Hf Hc x Hx.
    destruct (calculateAllModes_In d x Hd Hx) as (k & _ & ->). split.
    + apply nonneg_not_nan. apply pushed_percentage_not_nan; assumption.
    + intros He. cbn [emission pushed] in He.
      apply pushed_percentage_infinite; [ | exact He].
      apply divisor_pos_finite; assumption.
Qed.

Lemma percentageVsCar_spec_witness :
  (#100 < #0) = false
  /\ valid_binary prec emax #100 = true
  /\ (#100 < #(10 ^ 270)) = true
  /\ is_finite #100 = true
  /\ is_finite (calculateEmission (VNumber #100) (lit "carro")) = true
  /\ forall x, In x (calculateAllModes (VNumber #100)) ->
               is_finite (percentageVsCar x) = true
               /\ is_nan (percentageVsCar x) = false.
Proof.
  split; [reflexivity | split; [reflexivity | split; [reflexivity | ]]].
  split; [reflexivity | split; [reflexivity | ]].
  intros x Hx.
  destruct (percentageVsCar_spec #100 eq_refl) as (_ & _ & _ & _ & F & N).
  split.
  - exact (F eq_refl eq_refl x Hx).
  - exact (proj1 (N eq_refl eq_refl x Hx)).
Defined.

(** C9 as stated fails: at the finite distance [10^308] the car emission
    overflows to [Infinity] and the percentage of the car entry is
    [Infinity / Infinity], which is NaN. *)
Lemma percentageVsCar_finite_counterexample :
  let d := of_Z (10 ^ 308) in
  is_finite d = true
  /\ SFleb #0 d = true
  /\ exists x, In x (calculateAllModes (VNumber d))
               /\ mode x = lit "carro"
               /\ percentageVsCar x = NaN
               /\ is_finite (percentageVsCar x) = false.
Proof.
  cbv zeta. split; [reflexivity | split; [reflexivity | ]].
  exists (Entry (lit "carro") Infinity NaN).
  split; [ | repeat split].
  vm_compute. right; left; reflexivity.
Qed.

Lemma own_keys_NoDup : NoDup (own_keys EMISSION_FACTORS).
Proof.
  repeat constructor; cbn; intuition discriminate.
Qed.

Lemma pushed_positions (v : value) :
  StronglySorted (fun a b => (position a < position b)%nat)
                 (map (pushed v) (own_keys EMISSION_FACTORS)).
Proof.
  cbn [map own_keys EMISSION_FACTORS fst].
  repeat constructor.
Qed.

Lemma car_percentage (d : number) :
  let car := calculateEmission (VNumber d) (lit "carro") in
  (forall s m e, car = S754_finite s m e ->
                 percentageVsCar (pushed (VNumber d) (lit "carro")) = #100)
  /\ (forall s, car = S754_zero s ->
                percentageVsCar (pushed (VNumber d) (lit "carro")) = S754_zero s).
Proof.
  cbv zeta. split.
  - intros s m e E. unfold pushed, divisor. cbn [percentageVsCar].
    rewrite E.
    replace (S754_finite s m e === #0) with false by (destruct s; reflexivity).
    rewrite div_self. reflexivity.
  - intros s E. unfold pushed, divisor. cbn [percentageVsCar].
    rewrite E. destruct s; reflexivity.
Qed.

(** C1, as the code has it.  For a finite distance that is not below zero,
    [calculateAllModes] returns exactly one entry per mode of the factor
    table; the emissions are binary64 numbers, none of them NaN, and the
    entries are in ascending order of emission, as the comparisons of the
    engine see it, entries of equal emission keeping the order of the
    table.  The percentage of the car entry is exactly 100 when the car
    emission is finite and not zero, and it is zero when the car emission
    is zero. *)
Theorem calculateAllModes_sorted (d : number) :
  is_finite d = true -> (d < #0) = false ->
  let r := calculateAllModes (VNumber d) in
  Permutation (map mode r) (own_keys EMISSION_FACTORS)
  /\ NoDup (own_keys EMISSION_FACTORS)
  /\ Forall (fun x => valid_binary prec emax (emission x) = true
                      /\ is_nan (emission x) = false) r
  /\ StronglySorted in_order r
  /\ forall x, In x r -> mode x = lit "carro" ->
       (forall s m e, emission x = S754_finite s m e ->
                      percentageVsCar x = #100)
       /\ (forall s, emission x = S754_zero s ->
                     percentageVsCar x = S754_zero s).
Proof.
  intros Hf Hd r. subst r.
  assert (Hv : forall x, In x (calculateAllModes (VNumber d)) ->
                         valid_binary prec emax (emission x) = true
                         /\ Class.nonneg (emission x)).
  { intros x Hx. destruct (calculateAllModes_In d x Hd Hx) as (k & _ & ->).
    split; [apply pushed_valid | ].
    cbn [emission pushed]. apply calculateEmission_nonneg; assumption. }
  split; [ | split; [ | split; [ | split]]].
  - rewrite calculateAllModes_number by assumption.
    rewrite (sort_Permutation comparison_entry emission _).
    rewrite map_map. cbn [pushed mode]. rewrite map_id. reflexivity.
  - exact own_keys_NoDup.
  - apply Forall_forall. intros x Hx. destruct (Hv x Hx) as [V N].
    split; [exact V | apply nonneg_not_nan; exact N].
  - apply StronglySorted_impl with (R := key_order emission position).
    + intros a b Ha Hb. apply key_order_in_order; apply Hv; assumption.
    + rewrite calculateAllModes_number by assumption.
      apply sort_sorted.
      * apply Forall_forall. intros x Hx. apply in_map_iff in Hx.
        destruct Hx as (k & <- & _). cbn [emission pushed].
        apply calculateEmission_nonneg; assumption.
      * apply pushed_positions.
  - intros x Hx Hm.
    destruct (calculateAllModes_In d x Hd Hx) as (k & _ & ->).
    cbn [mode pushed] in Hm. subst k.
    exact (car_percentage d).
Qed.

Lemma calculateAllModes_sorted_witness :
  is_finite (decimal 4305 1) = true
  /\ (decimal 4305 1 < #0) = false
  /\ StronglySorted in_order (calculateAllModes (VNumber (decimal 4305 1)))
  /\ map mode (calculateAllModes (VNumber (decimal 4305 1)))
     = [lit "bicicleta"; lit "onibus"; lit "carro"; lit "caminhao"].
Proof.
  split; [reflexivity | split; [reflexivity | split; [ | reflexivity]]].
  exact (proj1 (proj2 (proj2 (proj2
           (calculateAllModes_sorted (decimal 4305 1) eq_refl eq_refl))))).
Defined.

(** C1 as stated fails: at distance [0] every emission is zero, the divisor
    is 0.001, and the percentage of the car entry is 0, not 100. *)
Lemma car_percentage_counterexample :
  SFleb #0 #0 = true
  /\ exists x, In x (calculateAllModes (VNumber #0))
               /\ mode x = lit "carro"
               /\ percentageVsCar x = #0
               /\ Exact.eqb (percentageVsCar x) #100 = false.
Proof.
  split; [reflexivity | ].
  exists (Entry (lit "carro") #0 #0).
  split; [ | repeat split].
  vm_compute. right; left; reflexivity.
Qed.

(** *** Signs, NaN allowed *)

Lemma mul_not_below_zero (x y : number) :
  (x < #0) = false -> Class.pos_finite y -> (x * y < #0) = false.
Proof.
  destruct x as [sx | sx | | sx mx ex]; destruct y as [sy | sy | | sy my ey];
    cbn [Class.pos_finite]; try contradiction; intros Hx ->; try reflexivity.
  - destruct sx; [discriminate | reflexivity].
  - destruct sx; [discriminate | ].
    apply lt_zero_signed_false. apply (binary_round_aux_signed false). lia.
Qed.

Lemma div_not_below_zero (x y : number) :
  (x < #0) = false -> (y > #0) = true -> (x / y < #0) = false.
Proof.
  destruct x as [sx | sx | | sx mx ex]; destruct y as [sy | sy | | sy my ey];
    try discriminate; try reflexivity;
    (destruct sy; [discriminate | ]); try reflexivity;
    (destruct sx; [discriminate | ]); try reflexivity.
  intros _ _. unfold div, SFdiv.
  pose proof (div_core_nonneg mx my ex ey) as Hq.
  destruct (SFdiv_core_binary prec emax (Zpos mx) ex (Zpos my) ey) as [[mz ez] lz].
  cbn [fst] in Hq.
  apply lt_zero_signed_false. apply (binary_round_aux_signed false). exact Hq.
Qed.

Lemma Math_round_not_below_zero (x : number) :
  (x < #0) = false -> (Math_round x < #0) = false.
Proof.
  destruct x as [s | s | | s m e]; cbn [Math_round]; auto.
  destruct s; [discriminate | ]. intros _.
  destruct (0 <=? e)%Z eqn:E0; [reflexivity | ].
  apply Z.leb_gt in E0. cbn [cond_Zopp].
  set (n := ((2 * Zpos m + 2 ^ (- e)) / 2 ^ (1 - e))%Z).
  assert (Hn : (0 <= n)%Z).
  { apply Z.div_pos; [ | apply pow2_gt0; lia].
    pose proof (pow2_gt0 (- e) ltac:(lia)). lia. }
  destruct (n =? 0)%Z eqn:En; [reflexivity | ].
  apply Z.eqb_neq in En.
  apply lt_zero_signed_false, signed_nonzero_signed, of_Z_pos_signed. lia.
Qed.

Lemma rounded_not_below_zero (x : number) :
  (x < #0) = false -> (rounded 2 x < #0) = false.
Proof.
  intros Hx. unfold rounded.
  apply div_not_below_zero; [ | reflexivity].
  apply Math_round_not_below_zero.
  apply mul_not_below_zero; [assumption | reflexivity].
Qed.

Lemma calculateSavings_unfold (emission baselineEmission : value) :
  let e := clamped emission in
  let b := clamped baselineEmission in
  let saved := if b - e < #0 then #0 else b - e in
  let pct := if b > #0 then (saved / b) * #100 else #0 in
  calculateSavings emission baselineEmission
  = Savings (rounded 2 saved) (rounded 2 pct).
Proof. reflexivity. Qed.

Lemma gt_exact (x y : number) :
  valid_binary prec emax x = true -> valid_binary prec emax y = true ->
  (x > y) = true -> Exact.ltb y x = true.
Proof.
  intros Vx Vy H. unfold gt, SFltb in H. unfold Exact.ltb.
  rewrite <- (SFcompare_exact y x Vy Vx). exact H.
Qed.

Lemma calculateSavings_exceeds (x y : number) :
  valid_binary prec emax x = true -> valid_binary prec emax y = true ->
  (x > y) = true ->
  calculateSavings (VNumber x) (VNumber y) = Savings #0 #0.
Proof.
  intros Vx Vy Hgt.
  pose proof (gt_exact x y Vx Vy Hgt) as Hex.
  destruct x as [sx | sx | | sx mx ex]; destruct y as [sy | sy | | sy my ey];
    try discriminate Hgt;
    repeat match goal with s : bool |- _ => destruct s end;
    try discriminate Hgt; try reflexivity.
  pose proof (valid_finite_bounds _ _ _ Vx) as (Hrx & _).
  pose proof (valid_finite_bounds _ _ _ Vy) as (Hry & _).
  rewrite calculateSavings_unfold. cbv zeta.
  change (clamped (VNumber (S754_finite false mx ex))) with (S754_finite false mx ex).
  change (clamped (VNumber (S754_finite false my ey))) with (S754_finite false my ey).
  rewrite sub_lt_zero by (cbn; auto). rewrite Hex.
  reflexivity.
Qed.

(** C7.  With both arguments clamped to [0] when they are refused,
    [calculateSavings] returns [savedKg = max(0, baseline - emission)] and
    [percentage = savedKg / baseline * 100] when the baseline is above
    zero, [0] otherwise, each rounded to 2 decimal places.  Neither field
    is ever below zero, and when the emission exceeds the baseline the
    result is [{savedKg: 0, percentage: 0}], as it is for an emission of 15
    against a baseline of 12. *)
Theorem calculateSavings_spec :
  (forall emission baselineEmission : value,
      let e := clamped emission in
      let b := clamped baselineEmission in
      let saved := if b - e < #0 then #0 else b - e in
      let pct := if b > #0 then (saved / b) * #100 else #0 in
      calculateSavings emission baselineEmission
      = Savings (rounded 2 saved) (rounded 2 pct)
      /\ (savedKg (calculateSavings emission baselineEmission) < #0) = false
      /\ (percentage (calculateSavings emission baselineEmission) < #0) = false)
  /\ (forall x y : number,
         valid_binary prec emax x = true -> valid_binary prec emax y = true ->
         (x > y) = true ->
         calculateSavings (VNumber x) (VNumber y) = Savings #0 #0)
  /\ calculateSavings (VNumber #15) (VNumber #12) = Savings #0 #0.
Proof.
  split; [ | split; [exact calculateSavings_exceeds | reflexivity]].
  intros emission baselineEmission e b saved pct.
  split; [reflexivity | ].
  rewrite calculateSavings_unfold. cbv zeta. cbn [savedKg percentage].
  fold e b. fold saved. fold pct.
  assert (Hs : (saved < #0) = false).
  { subst saved. destruct (b - e < #0) eqn:E; [reflexivity | exact E]. }
  split.
  - apply rounded_not_below_zero. exact Hs.
  - apply rounded_not_below_zero. subst pct.
    destruct (b > #0) eqn:Hb; [ | reflexivity].
    apply mul_not_below_zero; [ | reflexivity].
    apply div_not_below_zero; assumption.
Qed.

Lemma calculateSavings_spec_witness :
  valid_binary prec emax (decimal 515 1) = true
  /\ valid_binary prec emax (decimal 223 1) = true
  /\ (decimal 515 1 > decimal 223 1) = true
  /\ calculateSavings (VNumber (decimal 515 1)) (VNumber (decimal 223 1))
     = Savings #0 #0.
Proof.
  split; [reflexivity | split; [reflexivity | split; [reflexivity | ]]].
  apply (proj1 (proj2 calculateSavings_spec)); reflexivity.
Defined.

(** ** The route directory *)

Lemma string_eqb_eq (a b : jstring) : string_eqb a b = true <-> a = b.
Proof.
  revert b. induction a as [ | x a IH]; intros [ | y b]; cbn [string_eqb];
    try (split; [discriminate | discriminate]); [tauto | ].
  rewrite andb_true_iff, N.eqb_eq, IH. split.
  - intros [-> ->]; reflexivity.
  - intros [= -> ->]; auto.
Qed.

Lemma string_eqb_nil_r (a : jstring) : string_eqb a [] = falsy a.
Proof. destruct a; reflexivity. Qed.

Lemma scan_sym (rs : list route) (a b : jstring) : scan rs a b = scan rs b a.
Proof.
  induction rs as [ | r rs IH]; cbn [scan]; [reflexivity | ].
  destruct (links r a b), (links r b a); auto.
Qed.

(** C3.  [findDistance] is symmetric for every pair of strings, over any
    list of routes, whatever duplicates or reverse duplicates with
    conflicting distances it holds; the table holds such a pair
    (Fortaleza - Natal, 530 and 535) and both directions answer 530. *)
Theorem findDistance_symmetric :
  (forall (rs : list route) (A B : jstring),
      findDistanceIn rs A B = findDistanceIn rs B A)
  /\ (forall A B : jstring, findDistance A B = findDistance B A)
  /\ In (Route (lit "Fortaleza, CE") (lit "Natal, RN") #530) routes
  /\ In (Route (lit "Natal, RN") (lit "Fortaleza, CE") #535) routes
  /\ findDistance (lit "Fortaleza, CE") (lit "Natal, RN") = Some #530
  /\ findDistance (lit "Natal, RN") (lit "Fortaleza, CE") = Some #530.
Proof.
  assert (H : forall rs A B, findDistanceIn rs A B = findDistanceIn rs B A).
  { intros rs A B. unfold findDistanceIn.
    rewrite (orb_comm (falsy A)), scan_sym. reflexivity. }
  split; [exact H | split; [intros A B; apply H | ]].
  split; [ | split; [ | split]]; try reflexivity.
  - vm_compute. do 12 right. left. reflexivity.
  - vm_compute. do 31 right. left. reflexivity.
Qed.

Lemma trimStart_blank (s : jstring) : blank s -> trimStart s = [].
Proof.
  unfold blank. induction s as [ | u s IH]; cbn [forallb trimStart]; [reflexivity | ].
  intros H. apply andb_true_iff in H. destruct H as [-> H]. auto.
Qed.

Lemma trimStart_app_blank (w s : jstring) :
  blank w -> trimStart (w ++ s) = trimStart s.
Proof.
  unfold blank. induction w as [ | u w IH]; cbn [forallb app trimStart]; [reflexivity | ].
  intros H. apply andb_true_iff in H. destruct H as [-> H]. auto.
Qed.

Lemma trimStart_nil_blank (s : jstring) : trimStart s = [] -> blank s.
Proof.
  unfold blank. induction s as [ | u s IH]; cbn [forallb trimStart]; [reflexivity | ].
  destruct (is_white_space u); [auto | discriminate].
Qed.

Lemma trimStart_app (s t : jstring) :
  trimStart s <> [] -> trimStart (s ++ t) = trimStart s ++ t.
Proof.
  induction s as [ | u s IH]; cbn [app trimStart]; [congruence | ].
  destruct (is_white_space u); [exact IH | reflexivity].
Qed.

Lemma blank_rev (s : jstring) : blank s -> blank (rev s).
Proof.
  unfold blank. rewrite !forallb_forall. intros H u Hu.
  apply H. apply in_rev. exact Hu.
Qed.

Lemma blank_app (s t : jstring) : blank s -> blank t -> blank (s ++ t).
Proof. unfold blank. rewrite forallb_app. intros -> ->. reflexivity. Qed.

Lemma trim_blank (s : jstring) : blank s -> trim s = [].
Proof. intros H. unfold trim. rewrite (trimStart_blank s H). reflexivity. Qed.

Lemma trim_padding (w1 s w2 : jstring) :
  blank w1 -> blank w2 -> trim (w1 ++ s ++ w2) = trim s.
Proof.
  intros H1 H2. unfold trim. rewrite trimStart_app_blank by assumption.
  destruct (trimStart s) as [ | u t] eqn:E.
  - rewrite (trimStart_blank (s ++ w2)); [reflexivity | ].
    apply blank_app; [apply trimStart_nil_blank; exact E | exact H2].
  - rewrite trimStart_app by congruence. rewrite E.
    rewrite rev_app_distr. rewrite trimStart_app_blank by (apply blank_rev; exact H2).
    reflexivity.
Qed.

Ltac decide_comparisons :=
  repeat match goal with
         | |- context [(?a <=? ?b)%N] =>
             first [ replace (a <=? b)%N with true
                       by (symmetry; apply N.leb_le; lia)
                   | replace (a <=? b)%N with false
                       by (symmetry; apply N.leb_gt; lia) ]
         | |- context [(?a =? ?b)%N] =>
             first [ replace (a =? b)%N with false
                       by (symmetry; apply N.eqb_neq; lia)
                   | replace (a =? b)%N with true
                       by (symmetry; apply N.eqb_eq; lia) ]
         end.

Lemma lower_unit_cases (u : N) :
  (lower_unit u = u /\ ~ (65 <= u <= 90)%N
   /\ ~ ((192 <= u <= 222)%N /\ u <> 215%N))
  \/ (lower_unit u = (u + 32)%N
      /\ ((65 <= u <= 90)%N \/ ((192 <= u <= 222)%N /\ u <> 215%N))).
Proof.
  unfold lower_unit.
  destruct (N.leb_spec 65 u), (N.leb_spec u 90), (N.leb_spec 192 u),
    (N.leb_spec u 222), (N.eqb_spec u 215); cbn [andb negb];
    first [ left; split; [reflexivity | lia] | right; split; [reflexivity | lia] ].
Qed.

Lemma is_white_space_lower (u : N) :
  is_white_space (lower_unit u) = is_white_space u.
Proof.
  destruct (lower_unit_cases u) as [(-> & _) | (-> & [H | H])]; [reflexivity | | ];
    unfold is_white_space; decide_comparisons; reflexivity.
Qed.

Lemma trimStart_toLowerCase (s : jstring) :
  trimStart (toLowerCase s) = toLowerCase (trimStart s).
Proof.
  unfold toLowerCase. induction s as [ | u s IH]; cbn [map trimStart]; [reflexivity | ].
  rewrite is_white_space_lower. destruct (is_white_space u); [exact IH | reflexivity].
Qed.

Lemma trim_toLowerCase (s : jstring) :
  trim (toLowerCase s) = toLowerCase (trim s).
Proof.
  unfold trim. rewrite trimStart_toLowerCase.
  unfold toLowerCase at 1. rewrite <- map_rev. fold (toLowerCase (rev (trimStart s))).
  rewrite trimStart_toLowerCase. unfold toLowerCase. rewrite map_rev. reflexivity.
Qed.

Lemma normalize_same_case (s s' : jstring) :
  toLowerCase s = toLowerCase s' -> _normalize s = _normalize s'.
Proof.
  intros H. unfold _normalize. rewrite <- !trim_toLowerCase, H. reflexivity.
Qed.

Lemma normalize_padding (w1 s w2 : jstring) :
  blank w1 -> blank w2 -> _normalize (w1 ++ s ++ w2) = _normalize s.
Proof.
  intros H1 H2. unfold _normalize. rewrite trim_padding by assumption. reflexivity.
Qed.

Lemma normalize_blank (s : jstring) : blank s -> _normalize s = [].
Proof. intros H. unfold _normalize. rewrite trim_blank by assumption. reflexivity. Qed.

Lemma findDistanceIn_normalized (rs : list route) (o d o' d' : jstring) :
  falsy o = false -> falsy d = false -> falsy o' = false -> falsy d' = false ->
  _normalize o = _normalize o' -> _normalize d = _normalize d' ->
  findDistanceIn rs o d = findDistanceIn rs o' d'.
Proof.
  intros Ho Hd Ho' Hd' Eo Ed. unfold findDistanceIn.
  rewrite Ho, Hd, Ho', Hd', Eo, Ed. reflexivity.
Qed.

Lemma scan_unlinked (rs : list route) (a b : jstring) :
  unlinked rs a b -> scan rs a b = None.
Proof.
  unfold unlinked. induction rs as [ | r rs IH]; intros H; cbn [scan]; [reflexivity | ].
  destruct (H r (or_introl eq_refl)) as [-> ->].
  apply IH. intros r' Hr'. apply H. right; exact Hr'.
Qed.

Lemma scan_first_match (rs1 rs2 : list route) (r : route) (a b : jstring) :
  unlinked rs1 a b -> links r a b = true ->
  scan (rs1 ++ r :: rs2) a b = Some (distanceKM r).
Proof.
  unfold unlinked. induction rs1 as [ | r1 rs1 IH]; intros H Hr; cbn [app scan].
  - rewrite Hr. reflexivity.
  - destruct (H r1 (or_introl eq_refl)) as [-> ->].
    apply IH; [ | exact Hr]. intros r' Hr'. apply H. right; exact Hr'.
Qed.

Lemma links_refl (r : route) :
  links r (_normalize (origin r)) (_normalize (destination r)) = true.
Proof.
  unfold links. apply andb_true_iff. split; apply string_eqb_eq; reflexivity.
Qed.

Lemma scan_nil_name (rs : list route) (a b : jstring) :
  forallb named rs = true -> a = [] \/ b = [] -> scan rs a b = None.
Proof.
  intros Hn Hab. apply scan_unlinked. intros r Hr.
  rewrite forallb_forall in Hn. specialize (Hn r Hr).
  unfold named in Hn. apply andb_true_iff in Hn. destruct Hn as [H1 H2].
  apply negb_true_iff in H1, H2. unfold links.
  destruct Hab as [-> | ->]; rewrite !string_eqb_nil_r, ?H1, ?H2;
    rewrite ?andb_false_r; auto.
Qed.

(** C6, as the code has it.  The answer of [findDistance] depends on its
    arguments only through their normalised forms; normalising ignores
    the case of the letters and surrounding white space.  The first
    route, in the order of the list, that links the two names in either
    direction gives the answer to both directions of the query; so a
    stored route answers with its own distance when no earlier route links
    the same pair.  When an argument is empty or blank, or no route links
    the pair, the answer is the null sentinel [None], which is neither a
    number nor an exception.  The query of the specification answers
    430. *)
Theorem findDistance_spec :
  (forall (rs : list route) (o d o' d' : jstring),
      falsy o = false -> falsy d = false ->
      falsy o' = false -> falsy d' = false ->
      _normalize o = _normalize o' -> _normalize d = _normalize d' ->
      findDistanceIn rs o d = findDistanceIn rs o' d')
  /\ (forall s s' : jstring,
         toLowerCase s = toLowerCase s' -> _normalize s = _normalize s')
  /\ (forall w1 s w2 : jstring,
         blank w1 -> blank w2 -> _normalize (w1 ++ s ++ w2) = _normalize s)
  /\ (forall (rs1 rs2 : list route) (r : route) (o d : jstring),
         falsy o = false -> falsy d = false ->
         _normalize o = _normalize (origin r) ->
         _normalize d = _normalize (destination r) ->
         unlinked rs1 (_normalize o) (_normalize d) ->
         findDistanceIn (rs1 ++ r :: rs2) o d = Some (distanceKM r)
         /\ findDistanceIn (rs1 ++ r :: rs2) d o = Some (distanceKM r))
  /\ (forall (rs : list route) (o d : jstring),
         falsy o = true \/ falsy d = true -> findDistanceIn rs o d = None)
  /\ (forall (rs : list route) (o d : jstring),
         unlinked rs (_normalize o) (_normalize d) ->
         findDistanceIn rs o d = None)
  /\ (forall o d : jstring, blank o \/ blank d -> findDistance o d = None)
  /\ findDistance (lit " são paulo, sp ") (lit "RIO DE JANEIRO, RJ") = Some #430.
Proof.
  split; [exact findDistanceIn_normalized | ].
  split; [exact normalize_same_case | ].
  split; [exact normalize_padding | ].
  split; [ | split; [ | split; [ | split; [ | reflexivity]]]].
  - intros rs1 rs2 r o d Ho Hd Eo Ed Hu. unfold findDistanceIn.
    rewrite Ho, Hd. cbn [orb]. split.
    + apply scan_first_match; [exact Hu | ].
      rewrite Eo, Ed. apply links_refl.
    + rewrite scan_sym. apply scan_first_match; [exact Hu | ].
      rewrite Eo, Ed. apply links_refl.
  - intros rs o d [H | H]; unfold findDistanceIn; rewrite H;
      rewrite ?orb_true_r; reflexivity.
  - intros rs o d Hu. unfold findDistanceIn.
    destruct (falsy o || falsy d); [reflexivity | ].
    apply scan_unlinked. exact Hu.
  - intros o d Hb. unfold findDistance, findDistanceIn.
    destruct (falsy o || falsy d); [reflexivity | ].
    apply scan_nil_name; [vm_compute; reflexivity | ].
    destruct Hb as [Hb | Hb]; [left | right]; apply normalize_blank; exact Hb.
Qed.

Lemma findDistance_spec_witness :
  (falsy (lit "  BRASÍLIA, df") = false
   /\ falsy (lit "goiânia, GO ") = false
   /\ toLowerCase (lit "BRASÍLIA, df") = toLowerCase (lit "Brasília, DF")
   /\ _normalize (lit "BRASÍLIA, df") = _normalize (lit "Brasília, DF")
   /\ _normalize (lit "  BRASÍLIA, df") = _normalize (lit "Brasília, DF")
   /\ _normalize (lit "goiânia, GO ") = _normalize (lit "Goiânia, GO")
   /\ findDistance (lit "  BRASÍLIA, df") (lit "goiânia, GO ")
      = findDistance (lit "Brasília, DF") (lit "Goiânia, GO"))
  /\ (blank (lit "   ") /\ findDistance (lit "   ") (lit "Natal, RN") = None)
  /\ (unlinked [] (_normalize (lit "Natal, RN")) (_normalize (lit "Recife, PE"))
      /\ findDistanceIn
           ([] ++ Route (lit "Natal, RN") (lit "Recife, PE") #286 :: routes)
           (lit "recife, pe") (lit "natal, rn") = Some #286).
Proof.
  destruct findDistance_spec as (H1 & H2 & _ & H4 & _ & _ & H7 & _).
  split; [ | split].
  - split; [reflexivity | split; [reflexivity | split; [reflexivity | ]]].
    split; [apply H2; reflexivity | split; [reflexivity | split; [reflexivity | ]]].
    apply (H1 routes); reflexivity.
  - split; [reflexivity | apply H7; left; reflexivity].
  - assert (U : unlinked [] (_normalize (lit "Natal, RN"))
                         (_normalize (lit "Recife, PE")))
      by (intros r []).
    split; [exact U | ].
    apply (H4 [] routes (Route (lit "Natal, RN") (lit "Recife, PE") #286)
              (lit "natal, rn") (lit "recife, pe")); try reflexivity.
    exact U.
Defined.

(** C6 as stated fails on the table: the stored route
    (Natal, Fortaleza, 535) does not answer the query (Natal, Fortaleza)
    with 535; the earlier route (Fortaleza, Natal, 530) links the same pair
    and answers 530. *)
Lemma stored_route_counterexample :
  let r := Route (lit "Natal, RN") (lit "Fortaleza, CE") #535 in
  In r routes
  /\ findDistance (origin r) (destination r) = Some #530
  /\ findDistance (origin r) (destination r) <> Some (distanceKM r).
Proof.
  cbv zeta. split; [ | split].
  - vm_compute. do 31 right. left. reflexivity.
  - reflexivity.
  - vm_compute. discriminate.
Qed.


(** * Further properties *)

(** ** The route directory: lookup *)

Lemma scan_None_unlinked (rs : list route) (a b : jstring) :
  scan rs a b = None -> unlinked rs a b.
Proof.
  induction rs as [ | r rs IH]; cbn [scan]; intros H x Hx; [destruct Hx | ].
  destruct (links r a b) eqn:E1; [discriminate | ].
  destruct (links r b a) eqn:E2; [discriminate | ].
  destruct Hx as [<- | Hx]; [split; assumption | exact (IH H x Hx)].
Qed.

Lemma scan_Some_first (rs : list route) (a b : jstring) (x : number) :
  scan rs a b = Some x ->
  exists rs1 r rs2,
    rs = rs1 ++ r :: rs2 /\ unlinked rs1 a b
    /\ (links r a b = true \/ links r b a = true) /\ distanceKM r = x.
Proof.
  induction rs as [ | r rs IH]; cbn [scan]; [discriminate | ].
  destruct (links r a b) eqn:E1.
  - intros [= <-]. exists [], r, rs.
    split; [reflexivity | split; [intros y [] | split; [left; exact E1 | reflexivity]]].
  - destruct (links r b a) eqn:E2.
    + intros [= <-]. exists [], r, rs.
      split; [reflexivity | split; [intros y [] | split; [right; exact E2 | reflexivity]]].
    + intros H. destruct (IH H) as (rs1 & r' & rs2 & -> & Hu & Hl & Hd).
      exists (r :: rs1), r', rs2.
      split; [reflexivity | split; [ | split; [exact Hl | exact Hd]]].
      intros y [<- | Hy]; [split; assumption | apply Hu; exact Hy].
Qed.

(** X1.  [findDistance] answers the null sentinel exactly when an argument
    is the empty string or no route of the list links the two normalised
    names in either direction. *)
Theorem findDistance_None_iff (rs : list route) (o d : jstring) :
  findDistanceIn rs o d = None
  <-> falsy o = true \/ falsy d = true
      \/ unlinked rs (_normalize o) (_normalize d).
Proof.
  unfold findDistanceIn. split.
  - destruct (falsy o); [auto | ]. destruct (falsy d); [auto | ].
    cbn [orb]. intros H. right; right. apply scan_None_unlinked. exact H.
  - intros [-> | [-> | Hu]]; rewrite ?orb_true_r; try reflexivity.
    destruct (falsy o || falsy d); [reflexivity | ].
    apply scan_unlinked. exact Hu.
Qed.

(** X2.  A distance that [findDistance] answers is the distance of a stored
    route that links the two normalised names, in one direction or the
    other, and no route before it in the list links them. *)
Theorem findDistance_Some_first (rs : list route) (o d : jstring) (x : number) :
  findDistanceIn rs o d = Some x ->
  falsy o = false /\ falsy d = false
  /\ exists rs1 r rs2,
       rs = rs1 ++ r :: rs2
       /\ unlinked rs1 (_normalize o) (_normalize d)
       /\ (links r (_normalize o) (_normalize d) = true
           \/ links r (_normalize d) (_normalize o) = true)
       /\ distanceKM r = x.
Proof.
  unfold findDistanceIn.
  destruct (falsy o); [discriminate | ]. destruct (falsy d); [discriminate | ].
  cbn [orb]. intros H. split; [reflexivity | split; [reflexivity | ]].
  apply scan_Some_first. exact H.
Qed.

Lemma findDistance_Some_first_witness :
  findDistanceIn routes (lit "natal, rn") (lit " FORTALEZA, CE") = Some #530
  /\ exists rs1 r rs2,
       routes = rs1 ++ r :: rs2
       /\ unlinked rs1 (_normalize (lit "natal, rn"))
                   (_normalize (lit " FORTALEZA, CE"))
       /\ distanceKM r = #530.
Proof.
  split; [reflexivity | ].
  destruct (findDistance_Some_first routes (lit "natal, rn")
              (lit " FORTALEZA, CE") #530 eq_refl)
    as (_ & _ & rs1 & r & rs2 & E & U & _ & D).
  exists rs1, r, rs2. auto.
Defined.

(** X3.  A pair of cities that is stored is always found: for a route of
    the list whose two names are not empty, the lookup answers a distance,
    the same one in both directions. *)
Theorem findDistance_stored_found (rs : list route) (r : route) :
  In r rs -> falsy (origin r) = false -> falsy (destination r) = false ->
  exists x, findDistanceIn rs (origin r) (destination r) = Some x
            /\ findDistanceIn rs (destination r) (origin r) = Some x.
Proof.
  intros Hr Ho Hd.
  destruct (findDistanceIn rs (origin r) (destination r)) as [x | ] eqn:E.
  - exists x. split; [reflexivity | ].
    rewrite <- E. unfold findDistanceIn.
    rewrite (orb_comm (falsy (destination r))), scan_sym. reflexivity.
  - exfalso. unfold findDistanceIn in E. rewrite Ho, Hd in E. cbn [orb] in E.
    apply scan_None_unlinked in E.
    destruct (E r Hr) as [L _]. rewrite links_refl in L. discriminate.
Qed.

Lemma findDistance_None_iff_witness :
  unlinked routes (_normalize (lit "Natal, RN")) (_normalize (lit "Manaus, AM"))
  /\ findDistanceIn routes (lit "Natal, RN") (lit "Manaus, AM") = None.
Proof.
  assert (E : findDistanceIn routes (lit "Natal, RN") (lit "Manaus, AM") = None)
    by reflexivity.
  split; [ | exact E].
  destruct (proj1 (findDistance_None_iff routes (lit "Natal, RN")
                     (lit "Manaus, AM")) E) as [F | [F | U]];
    [discriminate F | discriminate F | exact U].
Defined.

Lemma findDistance_stored_found_witness :
  In (Route (lit "Natal, RN") (lit "Fortaleza, CE") #535) routes
  /\ exists x, findDistanceIn routes (lit "Natal, RN") (lit "Fortaleza, CE") = Some x
               /\ findDistanceIn routes (lit "Fortaleza, CE") (lit "Natal, RN") = Some x.
Proof.
  assert (H : In (Route (lit "Natal, RN") (lit "Fortaleza, CE") #535) routes)
    by (vm_compute; do 31 right; left; reflexivity).
  split; [exact H | ].
  exact (findDistance_stored_found routes _ H eq_refl eq_refl).
Defined.

(** ** The route directory: the list of cities *)

Lemma existsb_string_eqb (c : jstring) (s : list jstring) :
  existsb (string_eqb c) s = true <-> In c s.
Proof.
  rewrite existsb_exists. split.
  - intros (x & Hx & E). apply string_eqb_eq in E. subst x. exact Hx.
  - intros H. exists c. split; [exact H | apply string_eqb_eq; reflexivity].
Qed.

Lemma set_add_In (s : list jstring) (c x : jstring) :
  In x (set_add s c) <-> In x s \/ x = c.
Proof.
  unfold set_add. destruct (existsb (string_eqb c) s) eqn:E.
  - apply existsb_string_eqb in E. split; [auto | ].
    intros [H | ->]; assumption.
  - rewrite in_app_iff. cbn [In]. intuition congruence.
Qed.

Lemma set_add_NoDup (s : list jstring) (c : jstring) :
  NoDup s -> NoDup (set_add s c).
Proof.
  intros H. unfold set_add. destruct (existsb (string_eqb c) s) eqn:E; [exact H | ].
  assert (Hn : ~ In c s).
  { intros Hc. apply existsb_string_eqb in Hc. congruence. }
  apply NoDup_rev in H. rewrite <- (rev_involutive (s ++ [c])).
  apply NoDup_rev. rewrite rev_app_distr. cbn [rev app].
  constructor; [ | exact H]. rewrite <- in_rev. exact Hn.
Qed.

Lemma collect_In (rs : list route) : forall (acc : list jstring) (x : jstring),
  In x (collect rs acc)
  <-> In x acc \/ exists r, In r rs /\ (x = origin r \/ x = destination r).
Proof.
  induction rs as [ | r rs IH]; intros acc x; cbn [collect].
  - split; [auto | ]. intros [H | (r & [] & _)]. exact H.
  - rewrite IH, !set_add_In. split.
    + intros [[[H | ->] | ->] | (r' & Hr' & Hx)].
      * left; exact H.
      * right. exists r. split; [left; reflexivity | left; reflexivity].
      * right. exists r. split; [left; reflexivity | right; reflexivity].
      * right. exists r'. split; [right; exact Hr' | exact Hx].
    + intros [H | (r' & [<- | Hr'] & Hx)].
      * left; left; left; exact H.
      * destruct Hx as [-> | ->]; left; [left; right | right]; reflexivity.
      * right. exists r'. auto.
Qed.

Lemma collect_NoDup (rs : list route) : forall acc : list jstring,
  NoDup acc -> NoDup (collect rs acc).
Proof.
  induction rs as [ | r rs IH]; intros acc H; cbn [collect]; [exact H | ].
  apply IH. apply set_add_NoDup, set_add_NoDup. exact H.
Qed.

Lemma sort_insert_Permutation_any {A : Type} (comparefn : A -> A -> number)
  (x : A) (l : list A) :
  Permutation (sort_insert comparefn x l) (x :: l).
Proof.
  induction l as [ | z l IH]; cbn [sort_insert]; [reflexivity | ].
  destruct (comparefn x z < #0); [reflexivity | ].
  rewrite IH. apply perm_swap.
Qed.

Lemma sort_Permutation_any {A : Type} (comparefn : A -> A -> number)
  (l : list A) :
  Permutation (sort comparefn l) l.
Proof.
  unfold sort.
  assert (H : forall acc,
             Permutation
               (fold_left (fun acc x => sort_insert comparefn x acc) l acc)
               (acc ++ l)).
  { induction l as [ | x l IH]; intros acc; cbn [fold_left].
    - rewrite app_nil_r. reflexivity.
    - rewrite IH, sort_insert_Permutation_any.
      change (x :: acc) with ([x] ++ acc).
      rewrite (Permutation_app_comm [x] acc), <- app_assoc. reflexivity. }
  exact (H []).
Qed.

Lemma getAllCitiesIn_In
  (localeCompare : jstring -> jstring -> number) (rs : list route)
  (c : jstring) :
  In c (getAllCitiesIn localeCompare rs)
  <-> exists r, In r rs /\ (c = origin r \/ c = destination r).
Proof.
  unfold getAllCitiesIn. cbv zeta.
  pose proof (sort_Permutation_any (fun a b => localeCompare a b)
                (collect rs [])) as P.
  split.
  - intros H. apply (Permutation_in _ P) in H. apply collect_In in H.
    destruct H as [[] | H]. exact H.
  - intros H. apply (Permutation_in _ (Permutation_sym P)).
    apply collect_In. right. exact H.
Qed.

(** X4.  [getAllCities] lists every name that is the origin or the
    destination of a route, lists nothing else, and lists no name twice,
    whichever comparison the locale gives. *)
Theorem getAllCities_members
  (localeCompare : jstring -> jstring -> number) (rs : list route) :
  NoDup (getAllCitiesIn localeCompare rs)
  /\ forall c, In c (getAllCitiesIn localeCompare rs)
               <-> exists r, In r rs /\ (c = origin r \/ c = destination r).
Proof.
  unfold getAllCitiesIn. cbv zeta.
  pose proof (sort_Permutation_any (fun a b => localeCompare a b)
                (collect rs [])) as P.
  split.
  - apply (Permutation_NoDup (Permutation_sym P)).
    apply collect_NoDup. constructor.
  - intros c. apply getAllCitiesIn_In.
Qed.

Lemma getAllCities_members_witness :
  In (lit "Juazeiro, BA") (getAllCities (fun _ _ => #0))
  /\ NoDup (getAllCities (fun _ _ => #0)).
Proof.
  destruct (getAllCities_members (fun _ _ => #0) routes) as [N M].
  split; [ | exact N].
  apply (proj2 (M (lit "Juazeiro, BA"))).
  exists (Route (lit "Petrolina, PE") (lit "Juazeiro, BA") #10).
  split; [ | right; reflexivity].
  vm_compute. do 35 right. left. reflexivity.
Defined.

(** X5.  Every pair that [findDistance] can answer is offered by
    [getAllCities]: when the lookup answers a distance, each of the two
    names it was asked is, up to case and surrounding white space, a name
    of the list of cities. *)
Theorem findDistance_cities_listed
  (localeCompare : jstring -> jstring -> number) (rs : list route)
  (o d : jstring) (x : number) :
  findDistanceIn rs o d = Some x ->
  exists c1 c2,
    In c1 (getAllCitiesIn localeCompare rs)
    /\ In c2 (getAllCitiesIn localeCompare rs)
    /\ _normalize c1 = _normalize o /\ _normalize c2 = _normalize d.
Proof.
  intros H. unfold findDistanceIn in H.
  destruct (falsy o || falsy d); [discriminate | ].
  apply scan_Some_first in H.
  destruct H as (rs1 & r & rs2 & -> & _ & L & _).
  assert (Hr : In r (rs1 ++ r :: rs2)) by (apply in_elt).
  assert (Mo : In (origin r) (getAllCitiesIn localeCompare (rs1 ++ r :: rs2)))
    by (apply getAllCitiesIn_In; exists r; auto).
  assert (Md : In (destination r) (getAllCitiesIn localeCompare (rs1 ++ r :: rs2)))
    by (apply getAllCitiesIn_In; exists r; auto).
  unfold links in L.
  destruct L as [L | L]; apply andb_true_iff in L; destruct L as [L1 L2];
    apply string_eqb_eq in L1, L2.
  - exists (origin r), (destination r). auto.
  - exists (destination r), (origin r). auto.
Qed.

Lemma of_Z_lt_zero (n : Z) : (of_Z n < #0) = (n <? 0)%Z.
Proof.
  destruct n as [ | p | p].
  - reflexivity.
  - change (of_Z (Zpos p)) with (binary_round prec emax false p 0).
    rewrite (lt_zero_signed_false _ (binary_round_signed false p 0)). reflexivity.
  - assert (H : (Exact.emin <= 0)%Z) by (unfold Exact.emin; lia).
    change (of_Z (Zneg p)) with (binary_round prec emax true p 0).
    rewrite (lt_zero_signed_nonzero_true _ (binary_round_nonzero true p 0 H)).
    reflexivity.
Qed.

(** A comparison by length, to have a consistent comparison at hand. *)
Lemma length_compare_consistent :
  let cmp := fun a b : jstring =>
               of_Z (Z.of_nat (List.length a) - Z.of_nat (List.length b)) in
  (forall a b, (cmp a b < #0) = true -> (cmp b a < #0) = false)
  /\ (forall a b c, (cmp a b < #0) = true -> (cmp c b < #0) = false ->
                    (cmp c a < #0) = false).
Proof.
  cbv zeta. split.
  - intros a b. rewrite !of_Z_lt_zero. intros H.
    apply Z.ltb_lt in H. apply Z.ltb_ge. lia.
  - intros a b c. rewrite !of_Z_lt_zero. intros H1 H2.
    apply Z.ltb_lt in H1. apply Z.ltb_ge in H2. apply Z.ltb_ge. lia.
Qed.

Section SortConsistent.
Variable A : Type.
Variable comparefn : A -> A -> number.
Hypothesis asym :
  forall a b, (comparefn a b < #0) = true -> (comparefn b a < #0) = false.
Hypothesis trans :
  forall a b c, (comparefn a b < #0) = true -> (comparefn c b < #0) = false ->
                (comparefn c a < #0) = false.

Local Abbreviation not_after := (fun a b : A => (comparefn b a < #0) = false).

Lemma sort_insert_In_any (x y : A) (l : list A) :
  In y (sort_insert comparefn x l) <-> y = x \/ In y l.
Proof.
  split; intros H.
  - apply (Permutation_in _ (sort_insert_Permutation_any comparefn x l)) in H.
    destruct H as [<- | H]; auto.
  - apply (Permutation_in _ (Permutation_sym
             (sort_insert_Permutation_any comparefn x l))).
    destruct H as [-> | H]; [left; reflexivity | right; exact H].
Qed.

Lemma sort_insert_not_after (x : A) (l : list A) :
  StronglySorted not_after l ->
  StronglySorted not_after (sort_insert comparefn x l).
Proof.
  induction l as [ | y l IH]; intros S; cbn [sort_insert].
  - constructor; constructor.
  - inversion S as [ | ? ? Sl Fy]; subst.
    destruct (comparefn x y < #0) eqn:E.
    + constructor; [exact S | ].
      constructor; [apply asym; exact E | ].
      rewrite Forall_forall in *. intros z Hz.
      apply (trans x y z E). apply Fy. exact Hz.
    + constructor; [apply IH; exact Sl | ].
      rewrite Forall_forall in *. intros z Hz.
      apply sort_insert_In_any in Hz. destruct Hz as [-> | Hz]; auto.
Qed.

Lemma sort_not_after (l : list A) : StronglySorted not_after (sort comparefn l).
Proof.
  unfold sort.
  assert (H : forall acc, StronglySorted not_after acc ->
                StronglySorted not_after
                  (fold_left (fun acc x => sort_insert comparefn x acc) l acc)).
  { induction l as [ | x l IH]; intros acc S; cbn [fold_left]; [exact S | ].
    apply IH. apply sort_insert_not_after. exact S. }
  apply H. constructor.
Qed.

End SortConsistent.

(** X6.  When the comparison of the locale is consistent (it never puts
    two names each below the other, and a name below a second one is
    not above a third that the second is not above), [getAllCities] is in
    ascending order: no name compares below a name listed before it. *)
Theorem getAllCities_sorted
  (localeCompare : jstring -> jstring -> number) (rs : list route) :
  (forall a b, (localeCompare a b < #0) = true ->
               (localeCompare b a < #0) = false) ->
  (forall a b c, (localeCompare a b < #0) = true ->
                 (localeCompare c b < #0) = false ->
                 (localeCompare c a < #0) = false) ->
  StronglySorted (fun a b => (localeCompare b a < #0) = false)
                 (getAllCitiesIn localeCompare rs).
Proof.
  intros Ha Ht. unfold getAllCitiesIn. cbv zeta.
  apply (sort_not_after jstring (fun a b => localeCompare a b) Ha Ht).
Qed.

Lemma getAllCities_sorted_witness :
  let cmp := fun a b : jstring =>
               of_Z (Z.of_nat (List.length a) - Z.of_nat (List.length b)) in
  (forall a b, (cmp a b < #0) = true -> (cmp b a < #0) = false)
  /\ StronglySorted (fun a b => (cmp b a < #0) = false)
                    (getAllCitiesIn cmp routes)
  /\ List.length (getAllCitiesIn cmp routes) = 37%nat.
Proof.
  cbv zeta. destruct length_compare_consistent as [Ha Ht].
  split; [exact Ha | split; [ | vm_compute; reflexivity]].
  apply (getAllCities_sorted _ routes Ha Ht).
Defined.

Lemma findDistance_cities_listed_witness :
  let cmp := fun a b : jstring =>
               of_Z (Z.of_nat (List.length a) - Z.of_nat (List.length b)) in
  findDistanceIn routes (lit "  manaus, am") (lit "BELÉM, PA") = Some #1740
  /\ exists c1 c2,
       In c1 (getAllCitiesIn cmp routes) /\ In c2 (getAllCitiesIn cmp routes)
       /\ _normalize c1 = _normalize (lit "  manaus, am")
       /\ _normalize c2 = _normalize (lit "BELÉM, PA").
Proof.
  cbv zeta. split; [reflexivity | ].
  exact (findDistance_cities_listed _ routes (lit "  manaus, am")
           (lit "BELÉM, PA") #1740 eq_refl).
Defined.

(** ** Normalising twice *)

Lemma trimStart_decomp (s : jstring) :
  exists p, blank p /\ s = p ++ trimStart s.
Proof.
  induction s as [ | u s (p & Hp & E)]; cbn [trimStart].
  - exists []. split; reflexivity.
  - destruct (is_white_space u) eqn:W.
    + exists (u :: p). split.
      * unfold blank in *. cbn [forallb]. rewrite W, Hp. reflexivity.
      * cbn [app]. f_equal. exact E.
    + exists []. split; reflexivity.
Qed.

Lemma trimStart_head (s : jstring) (u : N) (t : jstring) :
  trimStart s = u :: t -> is_white_space u = false.
Proof.
  induction s as [ | v s IH]; cbn [trimStart]; [discriminate | ].
  destruct (is_white_space v) eqn:W; [exact IH | ].
  intros [= -> _]. exact W.
Qed.

Lemma trimStart_fixed (u : N) (t : jstring) :
  is_white_space u = false -> trimStart (u :: t) = u :: t.
Proof. intros W. cbn [trimStart]. rewrite W. reflexivity. Qed.

Lemma trim_idempotent (s : jstring) : trim (trim s) = trim s.
Proof.
  unfold trim.
  destruct (trimStart (rev (trimStart s))) as [ | a w] eqn:Ew; [reflexivity | ].
  pose proof (trimStart_head _ _ _ Ew) as Wa.
  destruct (trimStart_decomp (rev (trimStart s))) as (p & Hp & E).
  rewrite Ew in E.
  assert (Et : trimStart s = rev (a :: w) ++ rev p).
  { rewrite <- rev_app_distr, <- E, rev_involutive. reflexivity. }
  destruct (rev (a :: w)) as [ | b v] eqn:Er.
  - apply (f_equal (@List.length N)) in Er. rewrite length_rev in Er. discriminate.
  - cbn [app] in Et. pose proof (trimStart_head _ _ _ Et) as Wb.
    rewrite (trimStart_fixed b v Wb).
    rewrite <- Er, rev_involutive, (trimStart_fixed a w Wa). reflexivity.
Qed.

Lemma lower_unit_idempotent (u : N) : lower_unit (lower_unit u) = lower_unit u.
Proof.
  destruct (lower_unit_cases u) as [(E & _) | (E & [H | H])].
  - rewrite E. exact E.
  - rewrite E. unfold lower_unit. decide_comparisons. reflexivity.
  - rewrite E. unfold lower_unit. decide_comparisons. reflexivity.
Qed.

Lemma normalize_idempotent (s : jstring) :
  _normalize (_normalize s) = _normalize s.
Proof.
  unfold _normalize. rewrite <- trim_toLowerCase.
  unfold toLowerCase at 1 2. rewrite map_map.
  rewrite (map_ext _ lower_unit lower_unit_idempotent).
  fold (toLowerCase s). rewrite trim_toLowerCase, trim_idempotent. reflexivity.
Qed.

(** X7.  Normalising a name twice is normalising it once, and on the table
    of the sources [findDistance] gives the same answer for two names and
    for their normalised forms. *)
Theorem findDistance_normalized_arguments :
  (forall s : jstring, _normalize (_normalize s) = _normalize s)
  /\ (forall o d : jstring,
         findDistance (_normalize o) (_normalize d) = findDistance o d).
Proof.
  split; [exact normalize_idempotent | ].
  intros o d. unfold findDistance, findDistanceIn.
  rewrite !normalize_idempotent.
  assert (N : forallb named routes = true) by (vm_compute; reflexivity).
  destruct (falsy (_normalize o)) eqn:Fo.
  - assert (Eo : _normalize o = []) by (destruct (_normalize o); [reflexivity | discriminate]).
    cbn [orb]. destruct (falsy o || falsy d); [reflexivity | ].
    symmetry. apply scan_nil_name; [exact N | left; exact Eo].
  - destruct (falsy (_normalize d)) eqn:Fd.
    + assert (Ed : _normalize d = []) by (destruct (_normalize d); [reflexivity | discriminate]).
      cbn [orb]. destruct (falsy o || falsy d); [reflexivity | ].
      symmetry. apply scan_nil_name; [exact N | right; exact Ed].
    + assert (Ho : falsy o = false) by (destruct o; [discriminate Fo | reflexivity]).
      assert (Hd : falsy d = false) by (destruct d; [discriminate Fd | reflexivity]).
      rewrite Ho, Hd. reflexivity.
Qed.

(** ** Sums and differences of bounded numbers *)

Lemma sub_self (s : bool) (m : positive) (e : Z) :
  S754_finite s m e - S754_finite s m e = S754_zero false.
Proof.
  unfold sub, SFsub. cbv zeta.
  change (IntDef.Z.min e e) with (Z.min e e). rewrite Z.min_id.
  assert (E : shl_align m e e = (m, e))
    by (unfold shl_align; rewrite Z.sub_diag; reflexivity).
  rewrite E. cbn [fst].
  replace (cond_Zopp s (Zpos m) - cond_Zopp s (Zpos m))%Z with 0%Z by lia.
  reflexivity.
Qed.

Lemma aligned_digits (m : positive) (e ez : Z) :
  (ez <= e)%Z ->
  (Zdigits2 (Zpos (fst (shl_align m e ez))) + ez
   = Zpos (digits2_pos m) + e)%Z.
Proof.
  intros H. rewrite shl_align_fst by assumption.
  rewrite Zdigits2_shiftl by lia. cbn [Zdigits2]. lia.
Qed.

Lemma within_zero (k : Z) (s : bool) : Class.within k (S754_zero s).
Proof. split; [reflexivity | exact I]. Qed.

Lemma binary_round_within (k : Z) (p : positive) (e : Z) :
  (Zdigits2 (Zpos p) + e <= k)%Z -> (Exact.emin <= k <= 1023)%Z ->
  Class.within (k + 1) (binary_round prec emax false p e).
Proof.
  intros Hk Hb.
  destruct (binary_round_valid false p e) as (V & B & _).
  pose proof (binary_round_signed false p e) as S.
  specialize (B ltac:(lia)).
  apply within_intro; [exact V | apply signed_false_nonneg; exact S | ].
  eapply below_mono; [ | exact B]. lia.
Qed.

(** [max(0, x - y)] as [calculateSavings] computes it. *)
Lemma saved_within (a b : Z) (x y : number) :
  Class.within a x -> Class.within b y -> (Exact.emin <= a <= 1022)%Z ->
  Class.within (a + 1) (if x - y < #0 then #0 else x - y).
Proof.
  intros [Vx Hx] [Vy Hy] Ha.
  destruct x as [sx | sx | | sx mx ex]; destruct y as [sy | sy | | sy my ey];
    try contradiction.
  - destruct sx, sy; apply within_zero.
  - destruct Hy as [-> _]. apply within_zero.
  - destruct Hx as [-> Hx]. split; [exact Vx | split; [reflexivity | lia]].
  - destruct Hx as [-> Hx], Hy as [-> Hy].
    apply valid_finite_bounds in Vx, Vy.
    destruct Vx as (Rx & _), Vy as (Ry & _).
    unfold sub, SFsub. cbn [cond_Zopp].
    set (ez := Z.min ex ey).
    pose proof (aligned_digits mx ex ez ltac:(subst ez; lia)) as Dx.
    set (X := Zpos (fst (shl_align mx ex ez))) in *.
    set (Y := Zpos (fst (shl_align my ey ez))).
    assert (HY : (0 < Y)%Z) by (subst Y; lia).
    assert (HX : (0 < X)%Z) by (subst X; lia).
    destruct (X - Y)%Z as [ | p | p] eqn:E; cbn [binary_normalize].
    + apply within_zero.
    + rewrite (lt_zero_signed_false _ (binary_round_signed false p ez)).
      apply binary_round_within; [ | lia].
      assert (Hp : (Zdigits2 (Zpos p) <= Zdigits2 X)%Z)
        by (apply Zdigits2_mono; lia).
      lia.
    + assert (Hez : (Exact.emin <= ez)%Z) by (subst ez; lia).
      rewrite (lt_zero_signed_nonzero_true _ (binary_round_nonzero true p ez Hez)).
      apply within_zero.
Qed.

Lemma add_within (a : Z) (x y : number) :
  Class.within a x -> Class.within a y -> (Exact.emin <= a <= 1021)%Z ->
  Class.within (a + 2) (x + y).
Proof.
  intros [Vx Hx] [Vy Hy] Ha.
  destruct x as [sx | sx | | sx mx ex]; destruct y as [sy | sy | | sy my ey];
    try contradiction.
  - destruct sx, sy; apply within_zero.
  - destruct Hy as [-> Hy]. split; [exact Vy | split; [reflexivity | lia]].
  - destruct Hx as [-> Hx]. split; [exact Vx | split; [reflexivity | lia]].
  - destruct Hx as [-> Hx], Hy as [-> Hy].
    unfold add, SFadd. cbn [cond_Zopp].
    set (ez := Z.min ex ey).
    pose proof (aligned_digits mx ex ez ltac:(subst ez; lia)) as Dx.
    pose proof (aligned_digits my ey ez ltac:(subst ez; lia)) as Dy.
    set (X := Zpos (fst (shl_align mx ex ez))) in *.
    set (Y := Zpos (fst (shl_align my ey ez))) in *.
    assert (HX : (0 < X)%Z) by (subst X; lia).
    assert (HY : (0 < Y)%Z) by (subst Y; lia).
    pose proof (Zdigits2_bounds X HX) as [_ BX].
    pose proof (Zdigits2_bounds Y HY) as [_ BY].
    pose proof (Zdigits2_pos X HX) as PX. pose proof (Zdigits2_pos Y HY) as PY.
    destruct (X + Y)%Z as [ | p | p] eqn:E; try lia. cbn [binary_normalize].
    eapply within_mono; [ | apply (binary_round_within (a + 1) p ez); [ | lia]];
      [lia | ].
    assert (Hd : (Zdigits2 (Zpos p) <= a - ez + 1)%Z).
    { apply Zdigits2_le; [lia | | lia]. rewrite <- E.
      assert (A1 : (2 ^ Zdigits2 X <= 2 ^ (a - ez))%Z)
        by (apply Z.pow_le_mono_r; lia).
      assert (A2 : (2 ^ Zdigits2 Y <= 2 ^ (a - ez))%Z)
        by (apply Z.pow_le_mono_r; lia).
      rewrite Z.pow_add_r by lia. change (2 ^ 1)%Z with 2%Z. lia. }
    lia.
Qed.

Lemma rounded_within_scale (k s a : Z) (x : number) :
  Class.within s (of_Z (10 ^ k)) -> Class.at_least s (of_Z (10 ^ k)) ->
  Class.within a x -> (0 <= a + s + 1 <= 1021)%Z -> (1 <= s <= 1000)%Z ->
  Class.within (a + 5) (rounded k x).
Proof.
  intros Bs As Bx Ha Hs. unfold rounded.
  pose proof (mul_within a s x _ Bx Bs ltac:(unfold Exact.emin; lia)) as B1.
  destruct (Math_round_within _ _ B1 ltac:(lia)) as [B2 _].
  pose proof (div_within _ s _ _ B2 As ltac:(unfold Exact.emin; lia)) as B3.
  eapply within_mono; [ | exact B3]. lia.
Qed.

(** ** The form handler of [app.js] *)

Lemma accepts_distance (p : number) :
  APP.not_number (if is_nan p then #0 else p)
  || APP.le (if is_nan p then #0 else p) #0 = false
  <-> (p > #0) = true.
Proof.
  destruct p as [[ | ] | [ | ] | | [ | ] m e]; cbn; split; congruence.
Qed.

Lemma falsy_false (s : jstring) : falsy s = false <-> s <> [].
Proof. destruct s; cbn; split; congruence. Qed.

(** What a submission that is not answered by an alert has passed, and
    what it renders. *)
Lemma onFormSubmit_Rendered (o d : jstring) (p : number) (m : jstring)
  (r : APP.resultsData) (c : list comparison_entry) (k : APP.creditsData) :
  APP._onFormSubmit o d p m = APP.Rendered r c k ->
  let e := calculateEmission (VNumber p) m in
  let car := calculateEmission (VNumber p) (lit "carro") in
  let n := calculateCarbonCredits (VNumber e) in
  (trim o <> [] /\ trim d <> [] /\ (p > #0) = true /\ m <> [])
  /\ r = APP.ResultsData (trim o) (trim d) p e m
           (calculateSavings (VNumber e) (VNumber car))
  /\ c = calculateAllModes (VNumber p)
  /\ k = APP.CreditsData n (estimateCreditPrice (VNumber n)).
Proof.
  unfold APP._onFormSubmit.
  destruct (falsy (trim o)) eqn:Ho; [discriminate | ].
  destruct (falsy (trim d)) eqn:Hd; [discriminate | ].
  cbn [orb].
  destruct (APP.not_number (if is_nan p then #0 else p)
            || APP.le (if is_nan p then #0 else p) #0) eqn:Hp; [discriminate | ].
  destruct (falsy m) eqn:Hm; [discriminate | ].
  apply accepts_distance in Hp.
  assert (Hn : is_nan p = false) by (destruct p; [ | | discriminate | ]; reflexivity).
  rewrite Hn. intros H. injection H as <- <- <-.
  repeat apply conj; try reflexivity; try (apply falsy_false; assumption).
  exact Hp.
Qed.

Lemma gt_zero_not_lt (p : number) : (p > #0) = true -> (p < #0) = false.
Proof. destruct p as [[ | ] | [ | ] | | [ | ] m e]; cbn; congruence. Qed.

(** X8.  The handler renders a result exactly when the trimmed origin and
    destination are not empty, the parsed distance is greater than zero
    (so a NaN, a zero and a negative distance are all answered by an
    alert) and a transport mode is chosen; the distance it then shows is
    the parsed one. *)
Theorem onFormSubmit_accepts (o d : jstring) (p : number) (m : jstring) :
  ((exists r c k, APP._onFormSubmit o d p m = APP.Rendered r c k)
   <-> (trim o <> [] /\ trim d <> [] /\ (p > #0) = true /\ m <> []))
  /\ (forall r c k, APP._onFormSubmit o d p m = APP.Rendered r c k ->
        APP.origin r = trim o /\ APP.destination r = trim d
        /\ APP.distance r = p /\ APP.mode r = m).
Proof.
  split.
  - split.
    + intros (r & c & k & H). apply (onFormSubmit_Rendered o d p m r c k H).
    + intros (Ho & Hd & Hp & Hm).
      apply falsy_false in Ho, Hd, Hm. apply accepts_distance in Hp.
      unfold APP._onFormSubmit. rewrite Ho, Hd. cbn [orb]. rewrite Hp, Hm.
      eexists _, _, _. reflexivity.
  - intros r c k H.
    destruct (onFormSubmit_Rendered o d p m r c k H) as (_ & -> & _).
    repeat split.
Qed.

(** ** The numbers a rendered result shows *)

Lemma within_settled (k : Z) (x : number) :
  Class.within k x -> is_finite x = true /\ (x < #0) = false.
Proof.
  intros B. split; [exact (within_finite k x B) | ].
  apply nonneg_not_lt_zero. exact (within_nonneg k x B).
Qed.

Lemma within_literal (z : Z) (k : Z) :
  (match of_Z z with
   | S754_finite false m e => Zpos (digits2_pos m) + e =? k
   | _ => false
   end = true)%Z ->
  valid_binary prec emax (of_Z z) = true ->
  Class.within k (of_Z z) /\ Class.at_least k (of_Z z).
Proof.
  intros H V. destruct (of_Z z) as [s | s | | [ | ] m e]; try discriminate.
  apply Z.eqb_eq in H.
  split; (split; [exact V | split; [reflexivity | lia]]).
Qed.

Lemma gt_zero_at_least (a k : Z) (x : number) :
  (x === #0) = true \/ Class.at_least k x ->
  Class.within a x -> (x > #0) = true -> Class.at_least k x.
Proof.
  intros [Hz | Ha] [_ Hx] Hgt; [ | exact Ha].
  destruct x as [[ | ] | s | | s m e]; try contradiction; try discriminate.
  destruct Hx as [-> _]. discriminate.
Qed.

Lemma calculateEmission_zero_or_at_least (d : number) (transportMode : jstring) :
  Class.within 897 d ->
  (calculateEmission (VNumber d) transportMode === #0) = true
  \/ Class.at_least (-6) (calculateEmission (VNumber d) transportMode).
Proof.
  intros Bd. unfold calculateEmission.
  rewrite (nonneg_not_lt_zero d (within_nonneg _ _ Bd)).
  destruct (get_own EMISSION_FACTORS (toLowerCase (trim transportMode)))
    as [f | ] eqn:Hk; [ | left; reflexivity].
  rewrite rounded_2.
  pose proof (mul_within 897 0 d f Bd (factor_within _ _ Hk)
                ltac:(unfold Exact.emin; lia)) as B1.
  apply (rounded_zero_or_at_least 898 _ B1). lia.
Qed.

Lemma calculateSavings_within (a : Z) (e b : number) :
  Class.within a e -> Class.within a b ->
  (b === #0) = true \/ Class.at_least (-6) b -> (0 <= a <= 950)%Z ->
  Class.within (a + 6) (savedKg (calculateSavings (VNumber e) (VNumber b)))
  /\ Class.within (a + 22) (percentage (calculateSavings (VNumber e) (VNumber b))).
Proof.
  intros Be Bb Hb Ha.
  pose proof (calculateSavings_unfold (VNumber e) (VNumber b)) as U.
  cbv zeta in U. rewrite U. cbn [savedKg percentage clamped].
  rewrite (nonneg_not_lt_zero e (within_nonneg _ _ Be)).
  rewrite (nonneg_not_lt_zero b (within_nonneg _ _ Bb)).
  pose proof (saved_within a a b e Bb Be ltac:(unfold Exact.emin; lia)) as Bs.
  split.
  - eapply within_mono; [ | apply (rounded_within (a + 1) _ Bs); lia]. lia.
  - destruct (b > #0) eqn:Hgt.
    + pose proof (gt_zero_at_least a (-6) b Hb Bb Hgt) as Ab.
      pose proof (div_within (a + 1) (-6) _ _ Bs Ab
                    ltac:(unfold Exact.emin; lia)) as B1.
      pose proof (mul_within _ 7 _ _ B1 within_100
                    ltac:(unfold Exact.emin; lia)) as B2.
      eapply within_mono; [ | apply (rounded_within _ _ B2); lia]. lia.
    + eapply within_mono; [ | apply (rounded_within 0 #0); [apply within_zero | lia]].
      lia.
Qed.

Lemma calculateCarbonCredits_within (a : Z) (e : number) :
  Class.within a e -> (20 <= a <= 950)%Z ->
  Class.within (a - 3) (calculateCarbonCredits (VNumber e)).
Proof.
  intros Be Ha. unfold calculateCarbonCredits.
  rewrite (nonneg_not_lt_zero e (within_nonneg _ _ Be)).
  destruct (within_literal 1000 10 eq_refl eq_refl) as [_ A1000].
  destruct (within_literal (10 ^ 4) 14 eq_refl eq_refl) as [B4 A4].
  pose proof (div_within a 10 e _ Be A1000 ltac:(unfold Exact.emin; lia)) as B1.
  pose proof (rounded_within_scale 4 14 _ _ B4 A4 B1 ltac:(lia) ltac:(lia)) as B2.
  eapply within_mono; [ | exact B2]. lia.
Qed.

Lemma estimateCreditPrice_within (a : Z) (n : number) :
  Class.within a n -> (0 <= a <= 950)%Z ->
  let p := estimateCreditPrice (VNumber n) in
  Class.within (a + 16) (min p) /\ Class.within (a + 16) (max p)
  /\ Class.within (a + 16) (average p).
Proof.
  intros Bn Ha. unfold estimateCreditPrice. cbv zeta.
  rewrite (nonneg_not_lt_zero n (within_nonneg _ _ Bn)). cbn [min max average].
  rewrite !rounded_2.
  destruct (within_literal 50 6 eq_refl eq_refl) as [B50 _].
  destruct (within_literal 150 8 eq_refl eq_refl) as [B150 _].
  destruct (within_literal 2 2 eq_refl eq_refl) as [_ A2].
  pose proof (mul_within a 6 n _ Bn B50 ltac:(unfold Exact.emin; lia)) as Bmin.
  pose proof (mul_within a 8 n _ Bn B150 ltac:(unfold Exact.emin; lia)) as Bmax.
  pose proof (add_within (a + 8 + 1) _ _
                (within_mono (a + 6 + 1) (a + 8 + 1) _ ltac:(lia) Bmin) Bmax
                ltac:(unfold Exact.emin; lia)) as Bsum.
  pose proof (div_within _ 2 _ _ Bsum A2 ltac:(unfold Exact.emin; lia)) as Bavg.
  split; [ | split].
  - eapply within_mono; [ | apply (rounded_within _ _ Bmin); lia]. lia.
  - eapply within_mono; [ | apply (rounded_within _ _ Bmax); lia]. lia.
  - eapply within_mono; [ | apply (rounded_within _ _ Bavg); lia]. lia.
Qed.

Lemma onFormSubmit_accepts_witness :
  trim (lit " Curitiba, PR ") <> [] /\ trim (lit "Londrina, PR") <> []
  /\ (#380 > #0) = true /\ lit "onibus" <> []
  /\ exists r c k,
       APP._onFormSubmit (lit " Curitiba, PR ") (lit "Londrina, PR") #380
         (lit "onibus") = APP.Rendered r c k
       /\ APP.origin r = lit "Curitiba, PR" /\ APP.distance r = #380.
Proof.
  assert (H : trim (lit " Curitiba, PR ") <> [] /\ trim (lit "Londrina, PR") <> []
              /\ (#380 > #0) = true /\ lit "onibus" <> [])
    by (repeat split; discriminate).
  destruct (onFormSubmit_accepts (lit " Curitiba, PR ") (lit "Londrina, PR")
              #380 (lit "onibus")) as [A R].
  destruct (proj2 A H) as (r & c & k & E).
  destruct H as (H1 & H2 & H3 & H4).
  split; [exact H1 | split; [exact H2 | split; [exact H3 | split; [exact H4 | ]]]].
  exists r, c, k. split; [exact E | ].
  destruct (R r c k E) as (Ro & _ & Rd & _).
  split; [rewrite Ro; reflexivity | exact Rd].
Defined.

Lemma below_1e270_within (p : number) :
  valid_binary prec emax p = true -> (p < #0) = false ->
  (p < #(10 ^ 270)) = true -> Class.within 897 p.
Proof.
  intros Vp H0 Hlt.
  assert (EQ : #(10 ^ 270) = S754_finite false 8524789415648860 844)
    by (vm_compute; reflexivity).
  rewrite EQ in Hlt.
  exact (lt_within p 8524789415648860 844 Vp eq_refl H0 Hlt).
Qed.

Lemma rendered_within (p : number) (m : jstring) :
  Class.within 897 p ->
  let e := calculateEmission (VNumber p) m in
  let car := calculateEmission (VNumber p) (lit "carro") in
  let n := calculateCarbonCredits (VNumber e) in
  Forall (fun x => is_finite x = true /\ (x < #0) = false)
    ([p; e; savedKg (calculateSavings (VNumber e) (VNumber car));
      percentage (calculateSavings (VNumber e) (VNumber car));
      n; min (estimateCreditPrice (VNumber n));
      max (estimateCreditPrice (VNumber n));
      average (estimateCreditPrice (VNumber n))]
     ++ map emission (calculateAllModes (VNumber p))
     ++ map percentageVsCar (calculateAllModes (VNumber p))).
Proof.
  intros Bp e car n. subst e car n.
  pose proof (within_settled _ _ Bp) as [_ H0].
  pose proof (calculateEmission_within p m Bp) as Be.
  pose proof (calculateEmission_within p (lit "carro") Bp) as Bcar.
  pose proof (calculateEmission_zero_or_at_least p (lit "carro") Bp) as Acar.
  destruct (calculateSavings_within 903 _ _ Be Bcar Acar ltac:(lia)) as [Bs Bpct].
  pose proof (calculateCarbonCredits_within 903 _ Be ltac:(lia)) as Bn.
  destruct (estimateCreditPrice_within _ _ Bn ltac:(lia)) as (Bmin & Bmax & Bavg).
  apply Forall_app. split; [ | apply Forall_app; split].
  - repeat constructor; eapply within_settled; eassumption.
  - apply Forall_forall. intros x Hx. apply in_map_iff in Hx.
    destruct Hx as (y & <- & Hy).
    destruct (calculateAllModes_In p y H0 Hy) as (key & _ & ->).
    apply (within_settled 903). apply calculateEmission_within. exact Bp.
  - apply Forall_forall. intros x Hx. apply in_map_iff in Hx.
    destruct Hx as (y & <- & Hy).
    destruct (calculateAllModes_In p y H0 Hy) as (key & _ & ->).
    apply (within_settled 927). apply pushed_percentage_within. exact Bp.
Qed.

(** X9.  Every number of a rendered result is finite and not below zero
    when the parsed distance is a binary64 number below [1e270]: the
    distance, the emission, the saved kilograms and percentage, the
    credits, the three prices, and the emission and percentage of every
    entry of the comparison.  No NaN and no infinity reaches the page. *)
Theorem onFormSubmit_finite (o d : jstring) (p : number) (m : jstring)
  (r : APP.resultsData) (c : list comparison_entry) (k : APP.creditsData) :
  valid_binary prec emax p = true -> (p < #(10 ^ 270)) = true ->
  APP._onFormSubmit o d p m = APP.Rendered r c k ->
  Forall (fun x => is_finite x = true /\ (x < #0) = false)
    ([APP.distance r; APP.emission r;
      savedKg (APP.savings r); percentage (APP.savings r);
      APP.credits k; min (APP.price k); max (APP.price k);
      average (APP.price k)]
     ++ map emission c ++ map percentageVsCar c).
Proof.
  intros Vp Hlt H.
  destruct (onFormSubmit_Rendered o d p m r c k H)
    as ((_ & _ & Hgt & _) & -> & -> & ->).
  apply (rendered_within p m).
  exact (below_1e270_within p Vp (gt_zero_not_lt p Hgt) Hlt).
Qed.

Lemma onFormSubmit_finite_witness :
  valid_binary prec emax (decimal 4305 1) = true
  /\ (decimal 4305 1 < #(10 ^ 270)) = true
  /\ exists r c k,
       APP._onFormSubmit (lit "Recife, PE") (lit " Natal, RN") (decimal 4305 1)
         (lit "caminhao") = APP.Rendered r c k
       /\ Forall (fun x => is_finite x = true /\ (x < #0) = false)
            ([APP.distance r; APP.emission r;
              savedKg (APP.savings r); percentage (APP.savings r);
              APP.credits k; min (APP.price k); max (APP.price k);
              average (APP.price k)]
             ++ map emission c ++ map percentageVsCar c).
Proof.
  split; [reflexivity | split; [reflexivity | ]].
  eexists _, _, _. split; [reflexivity | ].
  apply (onFormSubmit_finite (lit "Recife, PE") (lit " Natal, RN")
           (decimal 4305 1) (lit "caminhao")); reflexivity.
Defined.

(** ** The chosen mode among the compared ones *)

Lemma get_own_key {A : Type} (o : list (jstring * A)) (k : jstring) (v : A) :
  get_own o k = Some v -> In k (own_keys o).
Proof.
  induction o as [ | [k' v'] o IH]; cbn [get_own own_keys map fst]; [discriminate | ].
  destruct (string_eqb k' k) eqn:E.
  - intros _. left. apply string_eqb_eq. exact E.
  - intros H. right. exact (IH H).
Qed.

Lemma calculateEmission_same_mode (v : value) (m m' : jstring) :
  toLowerCase (trim m) = toLowerCase (trim m') ->
  calculateEmission v m = calculateEmission v m'.
Proof.
  intros E. unfold calculateEmission. rewrite E. reflexivity.
Qed.

Lemma calculateEmission_normalized (v : value) (m : jstring) :
  calculateEmission v (toLowerCase (trim m)) = calculateEmission v m.
Proof.
  apply calculateEmission_same_mode. exact (normalize_idempotent m).
Qed.

Lemma calculateAllModes_modes (d : number) :
  (d < #0) = false ->
  Permutation (map mode (calculateAllModes (VNumber d)))
              (own_keys EMISSION_FACTORS).
Proof.
  intros H0. rewrite (calculateAllModes_number d H0).
  etransitivity; [apply Permutation_map; apply sort_Permutation_any | ].
  rewrite map_map. cbn [pushed mode]. rewrite map_id. reflexivity.
Qed.

(** X10.  Each entry of the comparison of a rendered result carries the
    emission [calculateEmission] gives for its mode at the submitted
    distance, and when the chosen mode, trimmed and in lower case, is a
    mode of the factor table, the comparison has an entry for it that
    shows the same emission as the headline result. *)
Theorem onFormSubmit_comparison_agrees (o d : jstring) (p : number)
  (m : jstring) (r : APP.resultsData) (c : list comparison_entry)
  (k : APP.creditsData) :
  APP._onFormSubmit o d p m = APP.Rendered r c k ->
  (forall x, In x c -> emission x = calculateEmission (VNumber p) (mode x))
  /\ (forall f, get_own EMISSION_FACTORS (toLowerCase (trim m)) = Some f ->
        exists x, In x c /\ mode x = toLowerCase (trim m)
                  /\ emission x = APP.emission r).
Proof.
  intros H.
  destruct (onFormSubmit_Rendered o d p m r c k H)
    as ((_ & _ & Hgt & _) & -> & -> & _).
  pose proof (gt_zero_not_lt p Hgt) as H0.
  pose proof (calculateAllModes_modes p H0) as P.
  split.
  - intros x Hx. destruct (calculateAllModes_In p x H0 Hx) as (key & _ & ->).
    reflexivity.
  - intros f Hf. apply get_own_key in Hf.
    apply (Permutation_in _ (Permutation_sym P)) in Hf.
    apply in_map_iff in Hf. destruct Hf as (x & Ex & Hx).
    exists x. split; [exact Hx | split; [exact Ex | ]].
    destruct (calculateAllModes_In p x H0 Hx) as (key & _ & ->).
    cbn [pushed mode emission APP.emission] in *. rewrite Ex.
    apply calculateEmission_normalized.
Qed.

Lemma onFormSubmit_comparison_agrees_witness :
  exists r c k,
    APP._onFormSubmit (lit "Manaus, AM") (lit "Boa Vista, RR") #785
      (lit " Onibus ") = APP.Rendered r c k
    /\ get_own EMISSION_FACTORS (toLowerCase (trim (lit " Onibus ")))
       = Some (decimal 89 3)
    /\ exists x, In x c /\ mode x = lit "onibus"
                 /\ emission x = APP.emission r.
Proof.
  eexists _, _, _. split; [reflexivity | ].
  split; [reflexivity | ].
  destruct (onFormSubmit_comparison_agrees (lit "Manaus, AM")
              (lit "Boa Vista, RR") #785 (lit " Onibus ") _ _ _ eq_refl)
    as (_ & E).
  exact (E (decimal 89 3) eq_refl).
Defined.

(** ** Savings against the car *)

Lemma calculateSavings_same (x : number) :
  is_finite x = true -> (x < #0) = false ->
  calculateSavings (VNumber x) (VNumber x) = Savings #0 #0.
Proof.
  intros F H0.
  pose proof (calculateSavings_unfold (VNumber x) (VNumber x)) as U.
  cbv zeta in U. rewrite U. cbn [clamped]. rewrite H0.
  destruct x as [[ | ] | s | | [ | ] m e]; try discriminate;
    try reflexivity.
  rewrite sub_self. reflexivity.
Qed.

Lemma car_finite_distance_finite (p : number) :
  (p > #0) = true ->
  is_finite (calculateEmission (VNumber p) (lit "carro")) = true ->
  is_finite p = true.
Proof.
  destruct p as [[ | ] | [ | ] | | [ | ] m e]; try discriminate; try reflexivity.
Qed.

(** X11.  When the chosen mode, trimmed and in lower case, is the car and the
    emission is finite, a rendered result shows no savings: both the saved
    kilograms and the percentage are [0]. *)
Theorem onFormSubmit_car_saves_nothing (o d : jstring) (p : number)
  (m : jstring) (r : APP.resultsData) (c : list comparison_entry)
  (k : APP.creditsData) :
  APP._onFormSubmit o d p m = APP.Rendered r c k ->
  toLowerCase (trim m) = lit "carro" ->
  is_finite (APP.emission r) = true ->
  APP.savings r = Savings #0 #0.
Proof.
  intros H Hm.
  destruct (onFormSubmit_Rendered o d p m r c k H)
    as ((_ & _ & Hgt & _) & -> & _ & _).
  cbn [APP.emission APP.savings].
  rewrite (calculateEmission_same_mode (VNumber p) m (lit "carro") Hm).
  intros F. apply calculateSavings_same; [exact F | ].
  apply nonneg_not_lt_zero. apply calculateEmission_nonneg.
  - exact (car_finite_distance_finite p Hgt F).
  - exact (gt_zero_not_lt p Hgt).
Qed.

Lemma onFormSubmit_car_saves_nothing_witness :
  exists r c k,
    APP._onFormSubmit (lit "Natal, RN") (lit "Recife, PE") (decimal 2875 1)
      (lit "CARRO") = APP.Rendered r c k
    /\ toLowerCase (trim (lit "CARRO")) = lit "carro"
    /\ is_finite (APP.emission r) = true
    /\ APP.savings r = Savings #0 #0.
Proof.
  eexists _, _, _. split; [reflexivity | ].
  split; [reflexivity | split; [reflexivity | ]].
  apply (onFormSubmit_car_saves_nothing (lit "Natal, RN") (lit "Recife, PE")
           (decimal 2875 1) (lit "CARRO") _ _ _ eq_refl);
    reflexivity.
Defined.





(** ** From the directory to the page *)

(** X13.  A distance that the auto-fill finds is always accepted: when
    [findDistance] answers a distance for the trimmed origin and
    destination, a submission of the same two fields with that distance
    and any chosen mode is rendered, not answered by an alert; the result
    shows that distance, and every number of it is finite and not below
    zero. *)
Theorem autofilled_distance_renders (o d m : jstring) (x : number) :
  findDistance (trim o) (trim d) = Some x -> m <> [] ->
  exists r c k,
    APP._onFormSubmit o d x m = APP.Rendered r c k
    /\ APP.distance r = x
    /\ Forall (fun y => is_finite y = true /\ (y < #0) = false)
         ([APP.distance r; APP.emission r;
           savedKg (APP.savings r); percentage (APP.savings r);
           APP.credits k; min (APP.price k); max (APP.price k);
           average (APP.price k)]
          ++ map emission c ++ map percentageVsCar c).
Proof.
  intros H Hm. unfold findDistance, findDistanceIn in H.
  destruct (falsy (trim o)) eqn:Ho; [discriminate | ].
  destruct (falsy (trim d)) eqn:Hd; [discriminate | ].
  cbn [orb] in H. apply scan_Some_first in H.
  destruct H as (rs1 & r & rs2 & E & _ & _ & <-).
  assert (C : forallb (fun r => valid_binary prec emax (distanceKM r)
                               && (distanceKM r > #0)
                               && (distanceKM r < #(10 ^ 270)))
                      routes = true) by (vm_compute; reflexivity).
  rewrite forallb_forall in C.
  assert (Hr : In r routes) by (rewrite E; apply in_elt).
  specialize (C r Hr).
  apply andb_true_iff in C. destruct C as [C Hlt].
  apply andb_true_iff in C. destruct C as [Vx Hgt].
  pose proof (proj2 (accepts_distance (distanceKM r)) Hgt) as Hp.
  assert (Hn : is_nan (distanceKM r) = false)
    by (destruct (distanceKM r); [ | | discriminate | ]; reflexivity).
  apply falsy_false in Hm.
  unfold APP._onFormSubmit. rewrite Ho, Hd. cbn [orb]. rewrite Hp, Hm, Hn.
  eexists _, _, _. split; [reflexivity | ]. split; [reflexivity | ].
  apply (rendered_within (distanceKM r) m).
  exact (below_1e270_within _ Vx (gt_zero_not_lt _ Hgt) Hlt).
Qed.

Lemma autofilled_distance_renders_witness :
  findDistance (trim (lit " Salvador, BA ")) (trim (lit "recife, pe"))
  = Some #800
  /\ lit "onibus" <> []
  /\ exists r c k,
       APP._onFormSubmit (lit " Salvador, BA ") (lit "recife, pe") #800
         (lit "onibus") = APP.Rendered r c k
       /\ APP.distance r = #800.
Proof.
  split; [reflexivity | split; [discriminate | ]].
  destruct (autofilled_distance_renders (lit " Salvador, BA ")
              (lit "recife, pe") (lit "onibus") #800 eq_refl
              ltac:(discriminate)) as (r & c & k & E & D & _).
  exists r, c, k. split; [exact E | exact D].
Defined.

(** ** The head of the comparison *)

Lemma sort_head_stays {A : Type} (comparefn : A -> A -> number) (h : A)
  (l acc : list A) :
  (forall x, In x l -> (comparefn x h < #0) = false) ->
  exists rest,
    fold_left (fun acc x => sort_insert comparefn x acc) l (h :: acc)
    = h :: rest.
Proof.
  revert acc. induction l as [ | x l IH]; intros acc H; cbn [fold_left].
  - exists acc. reflexivity.
  - cbn [sort_insert]. rewrite (H x (or_introl eq_refl)).
    apply IH. intros y Hy. apply H. right. exact Hy.
Qed.

Lemma bicycle_emission_zero (d : number) :
  is_finite d = true -> (d < #0) = false ->
  exists s, calculateEmission (VNumber d) (lit "bicicleta") = S754_zero s.
Proof.
  destruct d as [[ | ] | [ | ] | | [ | ] m e]; try discriminate; intros _ _;
    eexists; reflexivity.
Qed.

Lemma sub_zero_not_lt (x : number) (s : bool) :
  Class.nonneg x -> (x - S754_zero s < #0) = false.
Proof.
  destruct x as [[ | ] | [ | ] | | [ | ] m e]; destruct s; cbn;
    try reflexivity; try contradiction; intros H; try discriminate;
    destruct H; discriminate.
Qed.

Lemma zero_percentage (s : bool) (y : number) :
  Class.nonneg y -> (y === #0) = false ->
  exists s', rounded 2 ((S754_zero s / y) * #100) = S754_zero s'.
Proof.
  destruct y as [[ | ] | [ | ] | | [ | ] m e]; destruct s; cbn [Class.nonneg];
    try discriminate; try contradiction; intros H Hz;
    try (destruct H; discriminate); eexists; reflexivity.
Qed.

Lemma divisor_nonneg (d : number) :
  is_finite d = true -> (d < #0) = false -> Class.nonneg (divisor (VNumber d)).
Proof.
  intros F H0. unfold divisor.
  destruct (calculateEmission (VNumber d) (lit "carro") === #0).
  - vm_compute. split; [reflexivity | discriminate].
  - apply calculateEmission_nonneg; assumption.
Qed.

(** X14.  For a finite distance that is not below zero the comparison
    starts with the bicycle: the first entry of [calculateAllModes] is the
    one of the mode [bicicleta], and its emission and its percentage of
    the car are both zero. *)
Theorem calculateAllModes_bicycle_first (d : number) :
  is_finite d = true -> (d < #0) = false ->
  exists x rest,
    calculateAllModes (VNumber d) = x :: rest
    /\ mode x = lit "bicicleta"
    /\ (emission x === #0) = true /\ (percentageVsCar x === #0) = true.
Proof.
  intros F H0. rewrite (calculateAllModes_number d H0).
  destruct (bicycle_emission_zero d F H0) as [s Es].
  change (own_keys EMISSION_FACTORS)
    with (lit "bicicleta" :: tl (own_keys EMISSION_FACTORS)).
  cbn [map]. unfold sort. cbn [fold_left sort_insert].
  destruct (sort_head_stays (fun a b => emission a - emission b)
              (pushed (VNumber d) (lit "bicicleta"))
              (map (pushed (VNumber d)) (tl (own_keys EMISSION_FACTORS))) [])
    as [rest Er].
  { intros x Hx. apply in_map_iff in Hx. destruct Hx as (key & <- & _).
    cbn [pushed emission]. rewrite Es. apply sub_zero_not_lt.
    apply calculateEmission_nonneg; assumption. }
  rewrite Er. exists (pushed (VNumber d) (lit "bicicleta")), rest.
  split; [reflexivity | split; [reflexivity | ]].
  cbn [pushed emission percentageVsCar]. rewrite Es.
  split; [reflexivity | ].
  destruct (zero_percentage s (divisor (VNumber d))
              (divisor_nonneg d F H0) (divisor_not_zero _)) as [s' ->].
  reflexivity.
Qed.

Lemma calculateAllModes_bicycle_first_witness :
  is_finite (decimal 125 1) = true /\ (decimal 125 1 < #0) = false
  /\ exists x rest,
       calculateAllModes (VNumber (decimal 125 1)) = x :: rest
       /\ mode x = lit "bicicleta"
       /\ (emission x === #0) = true /\ (percentageVsCar x === #0) = true.
Proof.
  split; [reflexivity | split; [reflexivity | ]].
  exact (calculateAllModes_bicycle_first (decimal 125 1) eq_refl eq_refl).
Defined.
